(** * planar.Polygon: a shallow embedding of [planar/polygon.go]

    The Go code works on [float64] coordinates.  The embedding is written
    once over an interface of the arithmetic the code uses and is run at
    two instances: binary64 floats (Rocq's primitive floats, what the
    program computes) and the real numbers (the arithmetic the geometry is
    about).  Slice indexing that Go would answer with a run-time panic is
    an explicit [None]. *)

From Stdlib Require Import ZArith List Bool String Lia.
From Stdlib Require Import Reals Lra Permutation.
From Stdlib Require Import Floats.
Import ListNotations.

Set Implicit Arguments.

(* ================================================================= *)
(** ** Go run-time: indexing, panics, counted loops *)

Module Go.

(** A computation that may panic. *)
Definition bind {A B} (m : option A) (k : A -> option B) : option B :=
  match m with
  | Some a => k a
  | None => None
  end.

(** [len(s)] *)
Definition len {A} (s : list A) : Z := Z.of_nat (List.length s).

(** [s[i]]: panics when [i] is negative or not below [len(s)]. *)
Definition index {A} (s : list A) (i : Z) : option A :=
  if (i <? 0)%Z then None else nth_error s (Z.to_nat i).

(** The values [i] takes in [for i := lo; i < hi; i++]. *)
Definition range (lo hi : Z) : list Z :=
  map (fun k => (lo + Z.of_nat k)%Z) (seq 0 (Z.to_nat (hi - lo))).

(** What one turn of a loop body asks for: go on with a new value of
    the loop-carried variables, or [return r] out of the function. *)
Inductive flow (S R : Type) : Type :=
| Next (s : S)
| Return (r : R).
Arguments Next {S R} s.
Arguments Return {S R} r.

(** A counted loop whose body may panic or return early. *)
Fixpoint for_ {S R} (idx : list Z) (body : Z -> S -> option (flow S R))
         (s : S) : option (flow S R) :=
  match idx with
  | [] => Some (Next s)
  | i :: rest =>
      match body i s with
      | None => None
      | Some (Return r) => Some (Return r)
      | Some (Next s') => for_ rest body s'
      end
  end.

(** A counted loop with no early return. *)
Fixpoint fold {S} (idx : list Z) (body : Z -> S -> option S) (s : S)
  : option S :=
  match idx with
  | [] => Some s
  | i :: rest =>
      match body i s with
      | None => None
      | Some s' => fold rest body s'
      end
  end.

End Go.

Declare Scope go_scope.
Delimit Scope go_scope with go.
Notation "x <- m ;; k" := (Go.bind m (fun x => k))
  (at level 100, m at next level, right associativity) : go_scope.
Notation "s .[ i ]" := (Go.index s i)
  (at level 1, left associativity, format "s .[ i ]") : go_scope.

(* ================================================================= *)
(** ** The arithmetic of [float64] *)

(** The operations of [float64] that the area and centroid code uses. *)
Class Arith (F : Type) : Type := {
  zero : F;
  two : F;
  six : F;
  add : F -> F -> F;
  sub : F -> F -> F;
  mul : F -> F -> F;
  div : F -> F -> F;
  Abs : F -> F;              (* math.Abs *)
  Sqrt : F -> F              (* math.Sqrt *)
}.

(** The comparisons of [float64] and [math.Nextafter(x, math.Inf(1))],
    used by the containment code. *)
Class Compare (F : Type) : Type := {
  eqb : F -> F -> bool;      (* x == y *)
  ltb : F -> F -> bool;      (* x < y *)
  leb : F -> F -> bool;      (* x <= y *)
  NextafterInf : F -> F      (* math.Nextafter(x, math.Inf(1)) *)
}.

Declare Scope num_scope.
Delimit Scope num_scope with num.
Infix "+" := add : num_scope.
Infix "-" := sub : num_scope.
Infix "*" := mul : num_scope.
Infix "/" := div : num_scope.
Infix "==" := eqb (at level 70, no associativity) : num_scope.
Infix "<" := ltb : num_scope.
Infix "<=" := leb : num_scope.
Notation "x > y" := (ltb y x) : num_scope.
Notation "x >= y" := (leb y x) : num_scope.

(** binary64, as the processor computes it. *)
#[export] Instance float64_Arith : Arith float := {
  zero := 0%float;
  two := 2%float;
  six := 6%float;
  add := PrimFloat.add;
  sub := PrimFloat.sub;
  mul := PrimFloat.mul;
  div := PrimFloat.div;
  Abs := PrimFloat.abs;
  Sqrt := PrimFloat.sqrt
}.

#[export] Instance float64_Compare : Compare float := {
  eqb := PrimFloat.eqb;
  ltb := PrimFloat.ltb;
  leb := PrimFloat.leb;
  NextafterInf := PrimFloat.next_up
}.

(** Exact real arithmetic: [float64] without rounding, overflow or NaN. *)
#[export] Instance real_Arith : Arith R := {
  zero := 0%R;
  two := 2%R;
  six := 6%R;
  add := Rplus;
  sub := Rminus;
  mul := Rmult;
  div := Rdiv;
  Abs := Rabs;
  Sqrt := R_sqrt.sqrt
}.

(* ================================================================= *)
(** ** Points, line strings, polygons *)

Section Planar.

Context {F : Type} {arith : Arith F} {compare : Compare F}.

(** [type Point [2]float64]; [px p] is [p[0]] and [py p] is [p[1]]. *)
Record Point : Type := mkPoint { px : F; py : F }.

(** [type LineString []Point] *)
Definition LineString : Type := list Point.

(** [type Polygon []LineString]: the outer ring, then the holes. *)
Definition Polygon : Type := list LineString.

Local Open Scope go_scope.
Local Open Scope num_scope.

(** [lineStringArea] *)
Definition lineStringArea (ls : LineString) : option F :=
  if (Go.len ls =? 0)%Z then Some zero
  else
    area <- Go.fold (Go.range 1 (Go.len ls - 1))
              (fun i area =>
                 a <- ls.[i] ;;
                 b <- ls.[(i + 1)%Z] ;;
                 c <- ls.[(i - 1)%Z] ;;
                 Some (area + px a * (py b - py c)))
              zero ;;
    let last := (Go.len ls - 1)%Z in
    pl <- ls.[last] ;;
    p0 <- ls.[0%Z] ;;
    pm <- ls.[(last - 1)%Z] ;;
    let area := area + px pl * (py p0 - py pm) in
    p1 <- ls.[1%Z] ;;
    let area := area + px p0 * (py p1 - py pl) in
    Some (Abs (area / two)).

(** [Polygon.Area] *)
Definition Area (p : Polygon) : option F :=
  r0 <- p.[0%Z] ;;
  area <- lineStringArea r0 ;;
  Go.fold (Go.range 1 (Go.len p))
    (fun i area =>
       ri <- p.[i] ;;
       h <- lineStringArea ri ;;
       Some (area - h))
    area.


(** [LineString.ringCentroid]: the centroid of a ring and its signed
    area, summed relative to the first vertex. *)
Definition ringCentroid (ring : LineString) : option (Point * F) :=
  r0 <- ring.[0%Z] ;;
  let offsetX := px r0 in
  let offsetY := py r0 in
  acc <- Go.fold (Go.range 1 (Go.len ring - 1))
           (fun i '(cx, cy, area) =>
              ri <- ring.[i] ;;
              rj <- ring.[(i + 1)%Z] ;;
              let a := (px ri - offsetX) * (py rj - offsetY)
                       - (px rj - offsetX) * (py ri - offsetY) in
              Some (cx + (px ri + px rj - two * offsetX) * a,
                    cy + (py ri + py rj - two * offsetY) * a,
                    area + a))
           (zero, zero, zero) ;;
  let '(cx, cy, area) := acc in
  let area := area / two in
  let cx := cx / (six * area) in
  let cy := cy / (six * area) in
  Some (mkPoint (cx + offsetX) (cy + offsetY), area).

(** [Polygon.CentroidArea] *)
Definition CentroidArea (p : Polygon) : option (Point * F) :=
  r0 <- p.[0%Z] ;;
  ca <- ringCentroid r0 ;;
  let '(centroid, area) := ca in
  acc <- Go.fold (Go.range 1 (Go.len p))
           (fun i '(holeArea, hcx, hcy) =>
              ring <- p.[i] ;;
              ha <- ringCentroid ring ;;
              let '(hc, ha) := ha in
              Some (holeArea + ha, hcx + px hc * ha, hcy + py hc * ha))
           (zero, zero, zero) ;;
  let '(holeArea, hcx, hcy) := acc in
  let c0 := (area * px centroid - holeArea * hcx) / (area - holeArea) in
  let c1 := (area * py centroid - holeArea * hcy) / (area - holeArea) in
  Some (mkPoint c0 c1, area - holeArea).

(** [Polygon.Centroid] *)
Definition Centroid (p : Polygon) : option Point :=
  ca <- CentroidArea p ;;
  Some (fst ca).

(** [rayIntersect]: does the ray from [p] towards +x cross the segment
    from [s] to [e], and is [p] on the segment.  The parameter [p] is the
    callee's own copy of the point ([Point] is an array, passed by
    value); [cast] is the code after the nudge, run on that copy. *)
Definition rayIntersect (p s e : Point) : bool * bool :=
  let '(s, e) := if px s > px e then (e, s) else (s, e) in
  let cast (p : Point) : bool * bool :=
    if (px p < px s) || (px p > px e) then (false, false)
    else
      let slopes :=
        let rs := (py p - py s) / (px p - px s) in
        let ds := (py e - py s) / (px e - px s) in
        if rs == ds then (false, true) else (rs <= ds, false) in
      if py s > py e then
        if py p > py s then (false, false)
        else if py p < py e then (true, false)
        else slopes
      else
        if py p > py e then (false, false)
        else if py p < py s then (true, false)
        else slopes in
  let nudged := mkPoint (NextafterInf (px p)) (py p) in
  if px p == px s then
    if py p == py s then (false, true)
    else if px s == px e then
      if (py s > py e) && (py s >= py p) && (py p >= py e) then (false, true)
      else if (py e > py s) && (py e >= py p) && (py p >= py s) then (false, true)
      else cast nudged
    else cast nudged
  else if px p == px e then
    if py p == py e then (false, true)
    else cast nudged
  else cast p.

(** Functions of package [planar] that [polygon.go] calls and that are
    defined in other files of the package. *)
Section Callees.

(** [ls.Bound().Contains(point)] *)
Variable boundContains : LineString -> Point -> option bool.

(** [LineString.DistanceFrom] *)
Variable ringDistanceFrom : LineString -> Point -> option F.

(** What [wktPoints(buff, ls)] appends to the buffer. *)
Variable wktPoints : LineString -> string.

(** [lineStringContains] *)
Definition lineStringContains (ls : LineString) (point : Point)
  : option bool :=
  inb <- boundContains ls point ;;
  if negb inb then Some false
  else
    s0 <- ls.[0%Z] ;;
    sl <- ls.[(Go.len ls - 1)%Z] ;;
    let '(c, on) := rayIntersect point s0 sl in
    if on then Some true
    else
      r <- Go.for_ (Go.range 0 (Go.len ls - 1))
             (fun i c =>
                a <- ls.[i] ;;
                b <- ls.[(i + 1)%Z] ;;
                let '(inter, on) := rayIntersect point a b in
                if on then Some (Go.Return true)
                else Some (Go.Next (if inter then negb c else c)))
             c ;;
      match r with
      | Go.Next c => Some c
      | Go.Return b => Some b
      end.

(** [Polygon.Contains] *)
Definition Contains (p : Polygon) (point : Point) : option bool :=
  r0 <- p.[0%Z] ;;
  c <- lineStringContains r0 point ;;
  if negb c then Some false
  else
    r <- Go.for_ (Go.range 1 (Go.len p))
           (fun i (_ : unit) =>
              ri <- p.[i] ;;
              h <- lineStringContains ri point ;;
              if h then Some (Go.Return false) else Some (Go.Next tt))
           tt ;;
    match r with
    | Go.Next _ => Some true
    | Go.Return b => Some b
    end.

(** [Polygon.DistanceFrom] *)
Definition DistanceFrom (p : Polygon) (point : Point) : option F :=
  r0 <- p.[0%Z] ;;
  inRing <- Contains [r0] point ;;
  if negb inRing then ringDistanceFrom r0 point
  else
    r <- Go.for_ (Go.range 1 (Go.len p))
           (fun i (_ : unit) =>
              ri <- p.[i] ;;
              inHole <- Contains [ri] point ;;
              if inHole then
                d <- ringDistanceFrom ri point ;;
                Some (Go.Return d)
              else Some (Go.Next tt))
           tt ;;
    match r with
    | Go.Next _ => Some zero
    | Go.Return d => Some d
    end.

(** [Polygon.WKT] *)
Definition WKT (p : Polygon) : option string :=
  if (Go.len p =? 0)%Z then Some "EMPTY"%string
  else
    r0 <- p.[0%Z] ;;
    let buff := ("POLYGON(" ++ wktPoints r0)%string in
    buff <- Go.fold (Go.range 1 (Go.len p))
              (fun i buff =>
                 ri <- p.[i] ;;
                 Some (buff ++ "," ++ wktPoints ri)%string)
              buff ;;
    Some (buff ++ ")")%string.

End Callees.

(** *** The callees, from their description *)

(** Modelled from the spec: [type Rect] is declared in another file.  Two
    points, the minimum and the maximum corner. *)
Record Rect : Type := mkRect { Min : Point; Max : Point }.

(** Modelled from the spec: [Rect.Contains] is defined in another file.
    A point falls outside the rectangle when one of its coordinates is
    below the minimum corner's or above the maximum corner's. *)
Definition Rect_Contains (r : Rect) (point : Point) : bool :=
  if (py point < py (Min r)) || (py (Max r) < py point) then false
  else if (px point < px (Min r)) || (px (Max r) < px point) then false
  else true.

(** Modelled from the spec: the smaller and the larger of two
    coordinates, by comparison. *)
Definition fmin (a b : F) : F := if a < b then a else b.
Definition fmax (a b : F) : F := if b < a then a else b.

(** Modelled from the spec: one step of the single pass over the points,
    growing the rectangle to take in one more point. *)
Definition Rect_Extend (r : Rect) (p : Point) : Rect :=
  mkRect (mkPoint (fmin (px p) (px (Min r))) (fmin (py p) (py (Min r))))
         (mkPoint (fmax (px p) (px (Max r))) (fmax (py p) (py (Max r)))).

(** Modelled from the spec: [LineString.Bound] is defined in another
    file.  The rectangle of the smallest and largest coordinates of the
    ring's points, found in a single pass.  The spec gives no rectangle
    for a ring without points. *)
Definition Bound (ls : LineString) : option Rect :=
  match ls with
  | [] => None
  | p0 :: rest => Some (fold_left Rect_Extend rest (mkRect p0 p0))
  end.

(** Modelled from the spec: [ls.Bound().Contains(point)], with [Bound]
    and [Rect_Contains] as above. *)
Definition Bound_Contains (ls : LineString) (point : Point) : option bool :=
  r <- Bound ls ;;
  Some (Rect_Contains r point).

(** Modelled from the spec: the distance from a point to one edge, the
    segment from [a] to [b]: to the foot of the perpendicular when it
    falls on the segment, to the nearer end otherwise. *)
Definition segmentDistanceFrom (a b point : Point) : F :=
  let dx := px b - px a in
  let dy := py b - py a in
  let d := dx * dx + dy * dy in
  let along := (px point - px a) * dx + (py point - py a) * dy in
  let dist (q : Point) : F :=
    let ex := px point - px q in
    let ey := py point - py q in
    Sqrt (ex * ex + ey * ey) in
  if (d == zero) || (along < zero) then dist a
  else if d < along then dist b
  else
    let t := along / d in
    dist (mkPoint (px a + t * dx) (py a + t * dy)).

(** Modelled from the spec: [LineString.DistanceFrom] is defined in
    another file.  The minimum distance from the point to any of the
    ring's edges.  The spec gives no distance for a ring without
    edges. *)
Definition LineString_DistanceFrom (ls : LineString) (point : Point)
  : option F :=
  match ls with
  | a :: (b :: _) as rest =>
      Some (snd (fold_left
                   (fun '(prev, best) q =>
                      (q, fmin (segmentDistanceFrom prev q point) best))
                   (tl rest) (b, segmentDistanceFrom a b point)))
  | _ => None
  end.

End Planar.

Arguments Point F : clear implicits.
Arguments LineString F : clear implicits.
Arguments Polygon F : clear implicits.
Arguments Rect F : clear implicits.

(* ================================================================= *)
(** ** The same code over an explicit memory *)

(** A slice is a reference to a backing array.  Here the backing arrays
    of the rings live in a heap, a ring is the address of its array, and
    every read of a point goes through the heap.  A [Point] is an array
    and travels by value: a callee gets its own copy. *)
Module Stateful.

Section Memory.

Context {F : Type} {arith : Arith F} {compare : Compare F}.

(** What the caller of an operation can observe afterwards: the
    backing arrays, and its own variable holding the query point. *)
Record Memory : Type := mkMemory {
  heap : list (list (Point F));
  query : Point F
}.

(** A statement: it may panic, and it hands the memory on. *)
Definition M (A : Type) : Type := Memory -> option (A * Memory).

Definition ret {A} (a : A) : M A := fun m => Some (a, m).

Definition bind {A B} (c : M A) (k : A -> M B) : M B :=
  fun m => match c m with
           | Some (a, m') => k a m'
           | None => None
           end.

(** A computation that touches no memory. *)
Definition lift {A} (o : option A) : M A :=
  fun m => match o with
           | Some a => Some (a, m)
           | None => None
           end.

(** [len(ls)] for the slice at address [ls]. *)
Definition length (ls : Z) : M Z :=
  fun m => lift (Go.bind (Go.index (heap m) ls)
                   (fun a => Some (Go.len a))) m.

(** [ls[i]], read from the backing array. *)
Definition load (ls i : Z) : M (Point F) :=
  fun m => lift (Go.bind (Go.index (heap m) ls)
                   (fun a => Go.index a i)) m.

(** [ls[i] = v], written to the backing array.  No operation of
    [polygon.go] has such a statement. *)
Definition store (ls i : Z) (v : Point F) : M unit :=
  fun m =>
    match Go.index (heap m) ls with
    | Some a =>
        match Go.index a i with
        | Some _ =>
            let a' := firstn (Z.to_nat i) a ++ v :: skipn (S (Z.to_nat i)) a in
            let h' := firstn (Z.to_nat ls) (heap m)
                      ++ a' :: skipn (S (Z.to_nat ls)) (heap m) in
            Some (tt, mkMemory h' (query m))
        | None => None
        end
    | None => None
    end.

(** The caller's variable, copied into a parameter at a call. *)
Definition argument : M (Point F) := fun m => Some (query m, m).

Fixpoint for_ {S R} (idx : list Z) (body : Z -> S -> M (Go.flow S R))
         (s : S) : M (Go.flow S R) :=
  match idx with
  | [] => ret (Go.Next s)
  | i :: rest =>
      bind (body i s) (fun r =>
        match r with
        | Go.Return r => ret (Go.Return r)
        | Go.Next s' => for_ rest body s'
        end)
  end.

Fixpoint fold {S} (idx : list Z) (body : Z -> S -> M S) (s : S) : M S :=
  match idx with
  | [] => ret s
  | i :: rest => bind (body i s) (fun s' => fold rest body s')
  end.

(** The local variables of [rayIntersect]: its three parameters. *)
Record frame : Type := mkFrame { p : Point F; s : Point F; e : Point F }.

Local Open Scope num_scope.

(** The body of [rayIntersect] as a transformer of its own frame:
    the swap assigns [s] and [e], the nudge assigns [p[0]]. *)
Definition rayIntersect_body (fr : frame) : (bool * bool) * frame :=
  let fr := if px (s fr) > px (e fr)
            then mkFrame (p fr) (e fr) (s fr) else fr in
  let nudge (fr : frame) : frame :=
    mkFrame (mkPoint (NextafterInf (px (p fr))) (py (p fr))) (s fr) (e fr) in
  let cast (fr : frame) : (bool * bool) * frame :=
    let '(mkFrame p s e) := fr in
    if (px p < px s) || (px p > px e) then ((false, false), fr)
    else
      let slopes :=
        let rs := (py p - py s) / (px p - px s) in
        let ds := (py e - py s) / (px e - px s) in
        if rs == ds then (false, true) else (rs <= ds, false) in
      if py s > py e then
        if py p > py s then ((false, false), fr)
        else if py p < py e then ((true, false), fr)
        else (slopes, fr)
      else
        if py p > py e then ((false, false), fr)
        else if py p < py s then ((true, false), fr)
        else (slopes, fr) in
  let '(mkFrame p s e) := fr in
  if px p == px s then
    if py p == py s then ((false, true), fr)
    else if px s == px e then
      if (py s > py e) && (py s >= py p) && (py p >= py e)
      then ((false, true), fr)
      else if (py e > py s) && (py e >= py p) && (py p >= py s)
      then ((false, true), fr)
      else cast (nudge fr)
    else cast (nudge fr)
  else if px p == px e then
    if py p == py e then ((false, true), fr)
    else cast (nudge fr)
  else cast fr.

(** A call of [rayIntersect]: the arguments are copied into a new
    frame, the body runs on it, the results come back and the frame
    is gone. *)
Definition rayIntersect (point a b : Point F) : M (bool * bool) :=
  ret (fst (rayIntersect_body (mkFrame point a b))).

End Memory.

Arguments Memory F : clear implicits.
Arguments M F A : clear implicits.
Arguments frame F : clear implicits.

Declare Scope mem_scope.
Delimit Scope mem_scope with mem.
Notation "x <- c ;; k" := (bind c (fun x => k))
  (at level 100, c at next level, right associativity) : mem_scope.

Section Operations.

Context {F : Type} {arith : Arith F} {compare : Compare F}.

(** The callees, which get the slice and a copy of the point. *)
Variable boundContains : Z -> Point F -> M F bool.
Variable ringDistanceFrom : Z -> Point F -> M F F.
Variable wktPoints : Z -> M F string.

Local Open Scope mem_scope.
Local Open Scope num_scope.

(** [lineStringArea] *)
Definition lineStringArea (ls : Z) : M F F :=
  n <- length ls ;;
  if (n =? 0)%Z then ret zero
  else
    area <- fold (Go.range 1 (n - 1))
              (fun i area =>
                 a <- load ls i ;;
                 b <- load ls (i + 1)%Z ;;
                 c <- load ls (i - 1)%Z ;;
                 ret (area + px a * (py b - py c)))
              zero ;;
    let last := (n - 1)%Z in
    pl <- load ls last ;;
    p0 <- load ls 0%Z ;;
    pm <- load ls (last - 1)%Z ;;
    let area := area + px pl * (py p0 - py pm) in
    p1 <- load ls 1%Z ;;
    let area := area + px p0 * (py p1 - py pl) in
    ret (Abs (area / two)).

(** [Polygon.Area]; the polygon is the slice of its rings' addresses. *)
Definition Area (p : list Z) : M F F :=
  r0 <- lift (Go.index p 0%Z) ;;
  area <- lineStringArea r0 ;;
  fold (Go.range 1 (Go.len p))
    (fun i area =>
       ri <- lift (Go.index p i) ;;
       h <- lineStringArea ri ;;
       ret (area - h))
    area.

(** [LineString.ringCentroid] *)
Definition ringCentroid (ring : Z) : M F (Point F * F) :=
  n <- length ring ;;
  r0 <- load ring 0%Z ;;
  let offsetX := px r0 in
  let offsetY := py r0 in
  acc <- fold (Go.range 1 (n - 1))
           (fun i '(cx, cy, area) =>
              ri <- load ring i ;;
              rj <- load ring (i + 1)%Z ;;
              let a := (px ri - offsetX) * (py rj - offsetY)
                       - (px rj - offsetX) * (py ri - offsetY) in
              ret (cx + (px ri + px rj - two * offsetX) * a,
                   cy + (py ri + py rj - two * offsetY) * a,
                   area + a))
           (zero, zero, zero) ;;
  let '(cx, cy, area) := acc in
  let area := area / two in
  let cx := cx / (six * area) in
  let cy := cy / (six * area) in
  ret (mkPoint (cx + offsetX) (cy + offsetY), area).

(** [Polygon.CentroidArea] *)
Definition CentroidArea (p : list Z) : M F (Point F * F) :=
  r0 <- lift (Go.index p 0%Z) ;;
  ca <- ringCentroid r0 ;;
  let '(centroid, area) := ca in
  acc <- fold (Go.range 1 (Go.len p))
           (fun i '(holeArea, hcx, hcy) =>
              ring <- lift (Go.index p i) ;;
              ha <- ringCentroid ring ;;
              let '(hc, ha) := ha in
              ret (holeArea + ha, hcx + px hc * ha, hcy + py hc * ha))
           (zero, zero, zero) ;;
  let '(holeArea, hcx, hcy) := acc in
  let c0 := (area * px centroid - holeArea * hcx) / (area - holeArea) in
  let c1 := (area * py centroid - holeArea * hcy) / (area - holeArea) in
  ret (mkPoint c0 c1, area - holeArea).

(** [lineStringContains] *)
Definition lineStringContains (ls : Z) (point : Point F) : M F bool :=
  inb <- boundContains ls point ;;
  if negb inb then ret false
  else
    n <- length ls ;;
    s0 <- load ls 0%Z ;;
    sl <- load ls (n - 1)%Z ;;
    cr <- rayIntersect point s0 sl ;;
    let '(c, on) := cr in
    if on then ret true
    else
      r <- for_ (Go.range 0 (n - 1))
             (fun i c =>
                a <- load ls i ;;
                b <- load ls (i + 1)%Z ;;
                cr <- rayIntersect point a b ;;
                let '(inter, on) := cr in
                if on then ret (Go.Return true)
                else ret (Go.Next (if inter then negb c else c)))
             c ;;
      match r with
      | Go.Next c => ret c
      | Go.Return b => ret b
      end.

(** [Polygon.Contains] *)
Definition Contains (p : list Z) (point : Point F) : M F bool :=
  r0 <- lift (Go.index p 0%Z) ;;
  c <- lineStringContains r0 point ;;
  if negb c then ret false
  else
    r <- for_ (Go.range 1 (Go.len p))
           (fun i (_ : unit) =>
              ri <- lift (Go.index p i) ;;
              h <- lineStringContains ri point ;;
              if h then ret (Go.Return false) else ret (Go.Next tt))
           tt ;;
    match r with
    | Go.Next _ => ret true
    | Go.Return b => ret b
    end.

(** [Polygon.DistanceFrom]; [Polygon{p[0]}] is a new slice of one
    address. *)
Definition DistanceFrom (p : list Z) (point : Point F) : M F F :=
  r0 <- lift (Go.index p 0%Z) ;;
  inRing <- Contains [r0] point ;;
  if negb inRing then ringDistanceFrom r0 point
  else
    r <- for_ (Go.range 1 (Go.len p))
           (fun i (_ : unit) =>
              ri <- lift (Go.index p i) ;;
              inHole <- Contains [ri] point ;;
              if inHole then
                d <- ringDistanceFrom ri point ;;
                ret (Go.Return d)
              else ret (Go.Next tt))
           tt ;;
    match r with
    | Go.Next _ => ret zero
    | Go.Return d => ret d
    end.

(** [Polygon.WKT]; the buffer is a local of the function. *)
Definition WKT (p : list Z) : M F string :=
  if (Go.len p =? 0)%Z then ret "EMPTY"%string
  else
    r0 <- lift (Go.index p 0%Z) ;;
    w <- wktPoints r0 ;;
    let buff := ("POLYGON(" ++ w)%string in
    buff <- fold (Go.range 1 (Go.len p))
              (fun i buff =>
                 ri <- lift (Go.index p i) ;;
                 w <- wktPoints ri ;;
                 ret (buff ++ "," ++ w)%string)
              buff ;;
    ret (buff ++ ")")%string.

End Operations.

(** The polygon of addresses [p] stands in memory [m] for the polygon
    [poly]. *)
Definition Holds {F : Type} (m : Memory F) (p : list Z) (poly : Polygon F)
  : Prop :=
  Forall2 (fun r ring => Go.index (heap m) r = Some ring) p poly.

(** A callee that reads the ring at the address it is given and leaves
    the memory as it found it. *)
Definition ReadsOnly {F A : Type} (callee_m : Z -> M F A)
           (callee : LineString F -> option A) : Prop :=
  forall (m : Memory F) (r : Z) (ring : LineString F),
    Go.index (heap m) r = Some ring ->
    callee_m r m = lift (callee ring) m.

(** The statement [c], run from memory [m], ends in memory [m]. *)
Definition Preserves {F A : Type} (c : M F A) (m : Memory F) : Prop :=
  forall (a : A) (m' : Memory F), c m = Some (a, m') -> m' = m.

(** A callee given as a function of the ring, reading the ring at the
    address it gets. *)
Definition reading {F A : Type} (callee : LineString F -> option A)
           (r : Z) : M F A :=
  fun m => lift (Go.bind (Go.index (heap m) r) callee) m.

End Stateful.

(* ================================================================= *)
(** ** The program at [float64] *)

Definition pt (x y : float) : Point float := mkPoint x y.

(** [Polygon.Contains] and [Polygon.DistanceFrom] with the callees as
    described. *)
Definition Contains64 : Polygon float -> Point float -> option bool :=
  Contains Bound_Contains.

Definition DistanceFrom64 : Polygon float -> Point float -> option float :=
  DistanceFrom Bound_Contains LineString_DistanceFrom.

(** The unit square, counter-clockwise. *)
Definition unitSquare : LineString float :=
  [pt 0 0; pt 1 0; pt 1 1; pt 0 1; pt 0 0].

(** A square of side 4 and a square hole of side 2 in its middle. *)
Definition outer4 : LineString float :=
  [pt 0 0; pt 4 0; pt 4 4; pt 0 4; pt 0 0].
Definition hole2 : LineString float :=
  [pt 1 1; pt 3 1; pt 3 3; pt 1 3; pt 1 1].
Definition donut : Polygon float := [outer4; hole2].

(** A quadrilateral with one long side, [2^53] wide. *)
Definition sliver : LineString float :=
  [pt 0 0; pt 9007199254740992 0; pt 1 1; pt (-1) 1; pt 0 0].

(** The square with the square hole in memory, and the caller's query
    point (1, 2). *)
Definition donutMemory : Stateful.Memory float :=
  Stateful.mkMemory [outer4; hole2] (pt 1 2).

(** The unit square, clockwise. *)
Definition unitSquareCW : LineString float :=
  [pt 0 0; pt 0 1; pt 1 1; pt 1 0; pt 0 0].

(* ================================================================= *)
(** ** Definitions used to state and prove the properties *)

(** A loop over the elements of a list, with early return: what
    [Go.for_] does when its body starts by reading [s[i]]. *)
Fixpoint walk {A S R : Type} (body : A -> S -> option (Go.flow S R))
         (l : list A) (s : S) : option (Go.flow S R) :=
  match l with
  | [] => Some (Go.Next s)
  | a :: rest =>
      match body a s with
      | None => None
      | Some (Go.Return r) => Some (Go.Return r)
      | Some (Go.Next s') => walk body rest s'
      end
  end.

Section SpecWords.

Context {F : Type} {arith : Arith F}.

Local Open Scope num_scope.

(** One turn of the hole loop of [CentroidArea]. *)
Definition holeStep (acc : F * F * F) (hole : Point F * F) : F * F * F :=
  let '(holeArea, hcx, hcy) := acc in
  let '(hc, ha) := hole in
  (holeArea + ha, hcx + px hc * ha, hcy + py hc * ha).

(** The centroid and signed area of every ring of a list, in order. *)
Definition ringCentroids (rings : list (LineString F))
  : option (list (Point F * F)) :=
  fold_right
    (fun ring acc =>
       Go.bind (ringCentroid ring) (fun ca =>
       Go.bind acc (fun rest => Some (ca :: rest))))
    (Some []) rings.

(** The combination of outer ring and holes in the words of the spec:
    [(outerArea * outerCentroid - sum of holeArea * holeCentroid)
     / (outerArea - sum of holeArea)] on each axis. *)
Definition combine_spec (outerCentroid : Point F) (outerArea : F)
           (holes : list (Point F * F)) : Point F * F :=
  let sumArea := fold_left (fun acc h => acc + snd h) holes zero in
  let sumX := fold_left (fun acc h => acc + snd h * px (fst h)) holes zero in
  let sumY := fold_left (fun acc h => acc + snd h * py (fst h)) holes zero in
  (mkPoint ((outerArea * px outerCentroid - sumX) / (outerArea - sumArea))
           ((outerArea * py outerCentroid - sumY) / (outerArea - sumArea)),
   outerArea - sumArea).

(** [CentroidArea] with the rings measured by [ringCentroid], as the
    code does, and combined as the spec says. *)
Definition CentroidArea_spec (p : Polygon F) : option (Point F * F) :=
  match p with
  | [] => None
  | r0 :: holes =>
      Go.bind (ringCentroid r0) (fun '(centroid, area) =>
      Go.bind (ringCentroids holes) (fun hs =>
      Some (combine_spec centroid area hs)))
  end.

End SpecWords.

Section LoopBodies.

Context {F : Type} {arith : Arith F} {compare : Compare F}.
Variable boundContains : LineString F -> Point F -> option bool.
Variable ringDistanceFrom : LineString F -> Point F -> option F.

(** One turn of the hole loop of [Contains]. *)
Definition holeTest (point : Point F) (h : LineString F) (_ : unit)
  : option (Go.flow unit bool) :=
  Go.bind (lineStringContains boundContains h point) (fun c =>
    if c then Some (Go.Return false) else Some (Go.Next tt)).

(** One turn of the hole loop of [DistanceFrom]. *)
Definition holeDistance (point : Point F) (h : LineString F) (_ : unit)
  : option (Go.flow unit F) :=
  Go.bind (lineStringContains boundContains h point) (fun inHole =>
    if inHole then
      Go.bind (ringDistanceFrom h point) (fun d => Some (Go.Return d))
    else Some (Go.Next tt)).

(** An edge of a ring as [lineStringContains] visits them: two
    consecutive points, or the first point and the last. *)
Definition Edge (ls : LineString F) (s e : Point F) : Prop :=
  (exists i, Go.index ls i = Some s /\ Go.index ls (i + 1) = Some e)
  \/ (Go.index ls 0 = Some s /\ Go.index ls (Go.len ls - 1) = Some e).

(** The point has the x of a vertical edge and a y between the y of
    its ends, ends included. *)
Definition OnVerticalEdge (s e point : Point F) : Prop :=
  eqb (px s) (px e) = true
  /\ eqb (px point) (px s) = true
  /\ ((leb (py s) (py point) = true /\ leb (py point) (py e) = true)
      \/ (leb (py e) (py point) = true /\ leb (py point) (py s) = true)).

(** No coordinate of the point is outside the rectangle. *)
Definition Covers (r : Rect F) (v : Point F) : Prop :=
  ltb (px v) (px (Min r)) = false /\ ltb (px (Max r)) (px v) = false
  /\ ltb (py v) (py (Min r)) = false /\ ltb (py (Max r)) (py v) = false.

End LoopBodies.

Section Shoelace.

Context {F : Type} {arith : Arith F}.

Local Open Scope num_scope.

(** The point [ls[k]] of a ring, for [k] below its length. *)
Definition vertex (ls : LineString F) (k : nat) : Point F :=
  nth k ls (mkPoint zero zero).

(** What the loop of [lineStringArea] adds at [i = k + 1]. *)
Definition shoelaceTerm (ls : LineString F) (k : nat) : F :=
  px (vertex ls (S k)) * (py (vertex ls (S (S k))) - py (vertex ls k)).

(** The sum [lineStringArea] halves, for a ring of two points or more:
    the loop, then the terms for [i == N-1] and [i == N]. *)
Definition shoelaceSum (ls : LineString F) : F :=
  let n := List.length ls in
  fold_left (fun acc k => acc + shoelaceTerm ls k) (seq 0 (n - 2)) zero
  + px (vertex ls (n - 1)) * (py (vertex ls 0) - py (vertex ls (n - 2)))
  + px (vertex ls 0) * (py (vertex ls 1) - py (vertex ls (n - 1))).

End Shoelace.

(** The sum of a list of real numbers. *)
Definition Rsum (l : list R) : R := fold_right Rplus 0%R l.

(** The order laws of [float64] comparisons that the containment
    proofs use.  They hold with NaN among the arguments. *)
Class CompareLaws (F : Type) {compare : Compare F} : Prop := {
  eqb_sym : forall x y : F, eqb x y = eqb y x;
  eqb_not_ltb : forall x y : F, eqb x y = true -> ltb y x = false;
  eqb_ltb_l : forall x y z : F, eqb x y = true -> ltb x z = ltb y z;
  eqb_ltb_r : forall x y z : F, eqb x y = true -> ltb z x = ltb z y;
  ltb_irrefl : forall x : F, ltb x x = false;
  ltb_trans : forall x y z : F,
    ltb x y = true -> ltb y z = true -> ltb x z = true;
  ltb_leb_trans : forall x y z : F,
    ltb x y = true -> leb y z = true -> ltb x z = true;
  leb_ltb_trans : forall x y z : F,
    leb x y = true -> ltb y z = true -> ltb x z = true;
  leb_neq_ltb : forall x y : F,
    leb x y = true -> eqb x y = false -> ltb x y = true
}.
Arguments CompareLaws F {compare}.

(** Where a float stands in the order of [SFcompare]: infinities, then
    the sign, then the exponent, then the mantissa.  NaN has no place. *)
Definition key (x : spec_float) : option (Z * Z * Z) :=
  match x with
  | S754_nan => None
  | S754_infinity true => Some (-2, 0, 0)%Z
  | S754_infinity false => Some (2, 0, 0)%Z
  | S754_zero _ => Some (0, 0, 0)%Z
  | S754_finite true m e => Some (-1, - e, Z.neg m)%Z
  | S754_finite false m e => Some (1, e, Z.pos m)%Z
  end.

Definition lexlt (a b : Z * Z * Z) : Prop :=
  let '(a1, a2, a3) := a in
  let '(b1, b2, b3) := b in
  (a1 < b1 \/ (a1 = b1 /\ (a2 < b2 \/ (a2 = b2 /\ a3 < b3))))%Z.

(* ================================================================= *)
(** ** The rest of [polygon.go], and what its properties are stated with *)

Section PolygonRest.

Context {F : Type} {arith : Arith F} {compare : Compare F}.

(** [NewPolygon] *)
Definition NewPolygon : Polygon F := [].

(** [Polygon.Bound]: the bound of the outer ring, [Bound] being the
    callee as modelled above. *)
Definition Polygon_Bound (p : Polygon F) : option (Rect F) :=
  Go.bind (Go.index p 0) (fun r0 => Bound r0).

(** The coordinate is a number: [x == x] holds for all but NaN. *)
Definition IsNumber (x : F) : Prop := eqb x x = true.

(** A ring whose last point repeats its first, as the package expects
    of every ring. *)
Definition Closed (ls : LineString F) : Prop :=
  ls <> [] /\ vertex ls (List.length ls - 1) = vertex ls 0.

(** The ring moved by [(dx, dy)]. *)
Definition translate (dx dy : F) (ls : LineString F) : LineString F :=
  map (fun q => mkPoint (add (px q) dx) (add (py q) dy)) ls.

(** The text [WKT] writes for the holes: each one after a comma. *)
Definition wktHoles (wktPoints : LineString F -> string)
           (holes : list (LineString F)) : string :=
  fold_right (fun h rest => ("," ++ wktPoints h ++ rest)%string) ""%string holes.

End PolygonRest.

Section Fan.

Context {F : Type} {arith : Arith F}.

Local Open Scope num_scope.

(** The cross product [ringCentroid] forms at [i = j] from the points
    [ring[j]] and [ring[j+1]], both taken relative to [ring[0]]. *)
Definition fanCross (ring : LineString F) (j : nat) : F :=
  (px (vertex ring j) - px (vertex ring 0))
  * (py (vertex ring (S j)) - py (vertex ring 0))
  - (px (vertex ring (S j)) - px (vertex ring 0))
    * (py (vertex ring j) - py (vertex ring 0)).

(** The turn [i = k + 1] of the loop of [ringCentroid]. *)
Definition fanStep (ring : LineString F) (acc : F * F * F) (k : nat)
  : F * F * F :=
  let '(cx, cy, area) := acc in
  let a := fanCross ring (S k) in
  (cx + (px (vertex ring (S k)) + px (vertex ring (S (S k)))
         - two * px (vertex ring 0)) * a,
   cy + (py (vertex ring (S k)) + py (vertex ring (S (S k)))
         - two * py (vertex ring 0)) * a,
   area + a).

(** What [ringCentroid] returns from the sums of its loop. *)
Definition fanResult (ring : LineString F) (acc : F * F * F) : Point F * F :=
  let '(cx, cy, area) := acc in
  let area := area / two in
  (mkPoint (cx / (six * area) + px (vertex ring 0))
           (cy / (six * area) + py (vertex ring 0)),
   area).

End Fan.


Section EdgeLoop.

Context {F : Type} {arith : Arith F} {compare : Compare F}.

(** The pairs of consecutive points of a ring: the edges the loop of
    [lineStringContains] visits, in its order. *)
Definition edgesOf (ls : LineString F) : list (Point F * Point F) :=
  combine ls (tl ls).

(** One turn of the edge loop of [lineStringContains]. *)
Definition edgeTest (point : Point F) (ab : Point F * Point F) (c : bool)
  : option (Go.flow bool bool) :=
  let '(inter, on) := rayIntersect point (fst ab) (snd ab) in
  if on then Some (Go.Return true)
  else Some (Go.Next (if inter then negb c else c)).

(** Is the point on one of the edges; and how many of them, odd or
    even, does its ray cross. *)
Definition onSome (point : Point F) (es : list (Point F * Point F)) : bool :=
  existsb (fun ab => snd (rayIntersect point (fst ab) (snd ab))) es.

Definition parity (point : Point F) (es : list (Point F * Point F)) : bool :=
  fold_right (fun ab acc => xorb (fst (rayIntersect point (fst ab) (snd ab))) acc)
    false es.

End EdgeLoop.


(** A triangle without vertical edge. *)
Definition triangle : LineString float := [pt 0 0; pt 4 1; pt 2 3; pt 0 0].


Unset Implicit Arguments.

(* ================================================================= *)
(** ** Facts about the run-time model *)

Section GoFacts.

Context {A : Type}.




Lemma index_head (a : A) (s : list A) : Go.index (a :: s) 0 = Some a.
Proof. reflexivity. Qed.



Lemma index_in_range (s : list A) (i : Z) :
  (0 <= i < Go.len s)%Z -> exists a, Go.index s i = Some a.
Proof.
  intros [Hlo Hhi]. unfold Go.index, Go.len in *.
  destruct (Z.ltb_spec i 0); [lia|].
  destruct (nth_error s (Z.to_nat i)) eqn:E; [eauto|].
  apply nth_error_None in E. lia.
Qed.

Lemma index_Some_range (s : list A) (i : Z) (a : A) :
  Go.index s i = Some a -> (0 <= i < Go.len s)%Z.
Proof.
  unfold Go.index, Go.len. destruct (Z.ltb_spec i 0); [discriminate|].
  intros E. assert (Z.to_nat i < List.length s)%nat.
  { apply nth_error_Some. congruence. }
  lia.
Qed.

Lemma index_Some_In (s : list A) (i : Z) (a : A) :
  Go.index s i = Some a -> In a s.
Proof.
  unfold Go.index. destruct (i <? 0)%Z; [discriminate|].
  apply nth_error_In.
Qed.

Lemma range_empty (lo hi : Z) : (hi <= lo)%Z -> Go.range lo hi = [].
Proof.
  intros H. unfold Go.range.
  replace (Z.to_nat (hi - lo)) with 0%nat by lia. reflexivity.
Qed.

Lemma range_step (lo hi : Z) :
  (lo < hi)%Z -> Go.range lo hi = lo :: Go.range (lo + 1) hi.
Proof.
  intros H. unfold Go.range.
  replace (Z.to_nat (hi - lo)) with (S (Z.to_nat (hi - (lo + 1)))) by lia.
  cbn [seq map]. f_equal; [lia|].
  rewrite <- seq_shift, map_map.
  apply map_ext. intros k. lia.
Qed.

Lemma range_In (lo hi i : Z) : In i (Go.range lo hi) -> (lo <= i < hi)%Z.
Proof.
  unfold Go.range. rewrite in_map_iff. intros (k & <- & Hk).
  apply in_seq in Hk. lia.
Qed.

End GoFacts.

Lemma fold_ext {S : Type} (f g : Z -> S -> option S) (idx : list Z) :
  (forall i s, f i s = g i s) ->
  forall s, Go.fold idx f s = Go.fold idx g s.
Proof.
  intros H. induction idx as [|i idx IH]; intros s; cbn; [reflexivity|].
  rewrite H. destruct (g i s); auto.
Qed.

Lemma for_ext {S R : Type} (f g : Z -> S -> option (Go.flow S R))
      (idx : list Z) :
  (forall i s, f i s = g i s) ->
  forall s, Go.for_ idx f s = Go.for_ idx g s.
Proof.
  intros H. induction idx as [|i idx IH]; intros s; cbn; [reflexivity|].
  rewrite H. destruct (g i s) as [[s'|r]|]; auto.
Qed.

(** The elements of a slice from position [k] on, visited by index, are
    the elements of the list that follows the first [k]. *)
Lemma fold_over_tail {A S : Type} (body : A -> S -> option S) :
  forall (rest pre : list A) (s : S),
    Go.fold (Go.range (Go.len pre) (Go.len (pre ++ rest)))
      (fun i s => Go.bind (Go.index (pre ++ rest) i) (fun a => body a s)) s
    = fold_left (fun acc a => Go.bind acc (body a)) rest (Some s).
Proof.
  assert (Hnone : forall l : list A,
             fold_left (fun acc a => Go.bind acc (body a)) l None = None).
  { induction l; simpl; auto. }
  induction rest as [|a rest IH]; intros pre s.
  - rewrite app_nil_r, range_empty by lia. reflexivity.
  - rewrite range_step.
    2:{ unfold Go.len. rewrite length_app. simpl. lia. }
    cbn [Go.fold fold_left].
    assert (E : Go.index (pre ++ a :: rest) (Go.len pre) = Some a).
    { unfold Go.index, Go.len.
      destruct (Z.ltb_spec (Z.of_nat (List.length pre)) 0); [lia|].
      rewrite Nat2Z.id, nth_error_app2, Nat.sub_diag by lia. reflexivity. }
    rewrite E. cbn [Go.bind].
    destruct (body a s) as [s'|] eqn:Eb.
    + specialize (IH (pre ++ [a]) s').
      rewrite <- app_assoc in IH. cbn [app] in IH.
      replace (Go.len (pre ++ [a])) with (Go.len pre + 1)%Z in IH.
      2:{ unfold Go.len. rewrite length_app. simpl. lia. }
      exact IH.
    + symmetry. apply Hnone.
Qed.

(** The same for a loop that may return early. *)
Lemma for_over_tail {A S R : Type} (body : A -> S -> option (Go.flow S R)) :
  forall (rest pre : list A) (s : S),
    Go.for_ (Go.range (Go.len pre) (Go.len (pre ++ rest)))
      (fun i s => Go.bind (Go.index (pre ++ rest) i) (fun a => body a s)) s
    = walk body rest s.
Proof.
  induction rest as [|a rest IH]; intros pre s.
  - rewrite app_nil_r, range_empty by lia. reflexivity.
  - rewrite range_step.
    2:{ unfold Go.len. rewrite length_app. simpl. lia. }
    cbn [Go.for_ walk].
    assert (E : Go.index (pre ++ a :: rest) (Go.len pre) = Some a).
    { unfold Go.index, Go.len.
      destruct (Z.ltb_spec (Z.of_nat (List.length pre)) 0); [lia|].
      rewrite Nat2Z.id, nth_error_app2, Nat.sub_diag by lia. reflexivity. }
    rewrite E. cbn [Go.bind].
    destruct (body a s) as [[s'|r]|] eqn:Eb; try reflexivity.
    specialize (IH (pre ++ [a]) s').
    rewrite <- app_assoc in IH. cbn [app] in IH.
    replace (Go.len (pre ++ [a])) with (Go.len pre + 1)%Z in IH.
    2:{ unfold Go.len. rewrite length_app. simpl. lia. }
    exact IH.
Qed.

(* ================================================================= *)
(** ** A polygon with no rings; rings with too few points *)

(** C2.  On a polygon with zero rings [WKT] returns ["EMPTY"], but [Area]
    and [Contains] do not return 0 and false: both read [p[0]] first and
    panic, whatever the query point. *)
Theorem empty_polygon_WKT_only
  (bc : LineString float -> Point float -> option bool)
  (wkt : LineString float -> string) (point : Point float) :
  WKT wkt [] = Some "EMPTY"%string
  /\ Area (@nil (LineString float)) = None
  /\ Contains bc [] point = None.
Proof. repeat split. Qed.

(** C8.  [lineStringArea] returns 0 on a ring without points and on a
    ring of two points, but on a ring of exactly one point it reads
    [ls[last-1]], which is [ls[-1]], and panics. *)
Theorem lineStringArea_one_point_panics (p : Point float) :
  lineStringArea (@nil (Point float)) = Some 0%float
  /\ lineStringArea [pt 1 1; pt 2 3] = Some 0%float
  /\ lineStringArea [p] = None.
Proof. repeat split. Qed.

(* ================================================================= *)
(** ** Centroid and signed area *)

Section CentroidFacts.

Context {F : Type} {arith : Arith F}.

Local Open Scope num_scope.

Lemma CentroidArea_unfold (r0 : LineString F) (holes : list (LineString F)) :
  CentroidArea (r0 :: holes) =
  Go.bind (ringCentroid r0) (fun '(centroid, area) =>
  Go.bind (ringCentroids holes) (fun hs =>
    let '(holeArea, hcx, hcy) := fold_left holeStep hs (zero, zero, zero) in
    Some (mkPoint
            ((area * px centroid - holeArea * hcx) / (area - holeArea))
            ((area * py centroid - holeArea * hcy) / (area - holeArea)),
          area - holeArea))).
Proof.
  unfold CentroidArea. rewrite index_head. cbn [Go.bind].
  destruct (ringCentroid r0) as [[centroid area]|]; [|reflexivity].
  cbn [Go.bind].
  rewrite fold_ext with
    (g := fun i s =>
            Go.bind (Go.index (r0 :: holes) i) (fun ring =>
              Go.bind (ringCentroid ring) (fun ha => Some (holeStep s ha)))).
  2:{ intros i [[holeArea hcx] hcy].
      destruct (Go.index (r0 :: holes) i); [|reflexivity]. cbn [Go.bind].
      destruct (ringCentroid l) as [[hc ha]|]; reflexivity. }
  pose proof (fold_over_tail
                (fun ring s => Go.bind (ringCentroid ring)
                                 (fun ha => Some (holeStep s ha)))
                holes [r0] (zero, zero, zero)) as E.
  cbn [app] in E. change (Go.len [r0]) with 1%Z in E.
  rewrite E. clear E.
  generalize (@zero F _, @zero F _, @zero F _).
  induction holes as [|h holes IH]; intros acc.
  - reflexivity.
  - cbn [fold_left ringCentroids fold_right Go.bind].
    destruct (ringCentroid h) as [ca|] eqn:Eh; cbn [Go.bind].
    + rewrite IH. fold (ringCentroids holes).
      destruct (ringCentroids holes); reflexivity.
    + clear. induction holes; cbn; auto.
Qed.

End CentroidFacts.

(** What [CentroidArea] returns as area: the outer ring's signed area
    minus the sum of the holes' signed areas. *)
Lemma CentroidArea_area {F : Type} {arith : Arith F}
      (r0 : LineString F) (holes : list (LineString F)) :
  option_map snd (CentroidArea (r0 :: holes)) =
  Go.bind (ringCentroid r0) (fun ca =>
  Go.bind (ringCentroids holes) (fun hs =>
    Some (sub (snd ca) (fold_left add (map snd hs) zero)))).
Proof.
  rewrite CentroidArea_unfold.
  destruct (ringCentroid r0) as [[centroid area]|]; [|reflexivity].
  cbn [Go.bind snd].
  destruct (ringCentroids holes) as [hs|]; [|reflexivity].
  cbn [Go.bind].
  assert (E : forall acc : F * F * F,
             fst (fst (fold_left holeStep hs acc))
             = fold_left add (map snd hs) (fst (fst acc))).
  { induction hs as [|[hc ha] hs IH]; intros [[a x] y]; [reflexivity|].
    cbn [fold_left map holeStep snd]. rewrite IH. reflexivity. }
  specialize (E (zero, zero, zero)). cbn [fst] in E.
  destruct (fold_left holeStep hs (zero, zero, zero)) as [[holeArea hcx] hcy].
  cbn [fst] in E. cbn. now rewrite E.
Qed.

(** C1.  On the square of side 4 with the square hole of side 2 in its
    middle, the combination of the spec gives the centroid (2, 2), and
    [CentroidArea] gives (0, 0): the code multiplies the sum of the
    area-weighted hole centroids by the total hole area once more. *)
Theorem CentroidArea_weighs_holes_twice :
  CentroidArea_spec donut = Some (pt 2 2, 12%float)
  /\ CentroidArea donut = Some (pt 0 0, 12%float).
Proof. split; vm_compute; reflexivity. Qed.

(** C10.  The clockwise unit square is a polygon without holes whose
    [Area] is 1 and whose [CentroidArea] area is -1, the signed area of
    its ring (+1 for the counter-clockwise square); and for every
    polygon the area [CentroidArea] returns is the outer ring's signed
    area minus the sum of the holes' signed areas. *)
Theorem CentroidArea_area_is_signed :
  (Area [unitSquareCW] = Some 1%float
   /\ option_map snd (ringCentroid unitSquare) = Some 1%float
   /\ option_map snd (ringCentroid unitSquareCW) = Some (-1)%float
   /\ exists c a, CentroidArea [unitSquareCW] = Some (c, a)
                  /\ ltb a zero = true)
  /\ forall (r0 : LineString float) (holes : list (LineString float)),
       option_map snd (CentroidArea (r0 :: holes)) =
       Go.bind (ringCentroid r0) (fun ca =>
       Go.bind (ringCentroids holes) (fun hs =>
         Some (sub (snd ca) (fold_left add (map snd hs) zero)))).
Proof.
  split.
  - repeat split; try (vm_compute; reflexivity).
    exists (pt 0.5 0.5), (-1)%float. split; vm_compute; reflexivity.
  - intros. apply CentroidArea_area.
Qed.

(* ================================================================= *)
(** ** The order of binary64 *)

Lemma SFcompare_key (x y : spec_float) :
  match SFcompare x y, key x, key y with
  | Some Lt, Some a, Some b => lexlt a b
  | Some Eq, Some a, Some b => a = b
  | Some Gt, Some a, Some b => lexlt b a
  | None, None, _ | None, _, None => True
  | _, _, _ => False
  end.
Proof.
  destruct x as [sx|sx| |sx mx ex], y as [sy|sy| |sy my ey];
    try destruct sx; try destruct sy; cbn; try lia; try exact I; try reflexivity.
  - destruct (Z.compare_spec ex ey); cbn; try lia.
    change (Pos.compare_cont Eq mx my) with (Pos.compare mx my).
    destruct (Pos.compare_spec mx my); cbn; try lia. subst. reflexivity.
  - destruct (Z.compare_spec ex ey); cbn; try lia.
    change (Pos.compare_cont Eq mx my) with (Pos.compare mx my).
    destruct (Pos.compare_spec mx my); cbn; try lia. subst. reflexivity.
Qed.

Lemma float_ltb_key (x y : float) :
  PrimFloat.ltb x y = true <->
  exists a b, key (Prim2SF x) = Some a /\ key (Prim2SF y) = Some b /\ lexlt a b.
Proof.
  rewrite ltb_spec. unfold SFltb.
  pose proof (SFcompare_key (Prim2SF x) (Prim2SF y)) as H.
  destruct (SFcompare (Prim2SF x) (Prim2SF y)) as [[| |]|],
    (key (Prim2SF x)) as [[[a1 a2] a3]|], (key (Prim2SF y)) as [[[b1 b2] b3]|];
    try contradiction;
    (split; [intros E; try discriminate; eauto
            |intros (a & b & Ea & Eb & L); try discriminate;
             try reflexivity; injection Ea as <-; injection Eb as <-;
             cbn in *; try injection H as -> -> ->; lia]).
Qed.

Lemma float_leb_key (x y : float) :
  PrimFloat.leb x y = true <->
  exists a b, key (Prim2SF x) = Some a /\ key (Prim2SF y) = Some b
              /\ (lexlt a b \/ a = b).
Proof.
  rewrite leb_spec. unfold SFleb.
  pose proof (SFcompare_key (Prim2SF x) (Prim2SF y)) as H.
  destruct (SFcompare (Prim2SF x) (Prim2SF y)) as [[| |]|],
    (key (Prim2SF x)) as [[[a1 a2] a3]|], (key (Prim2SF y)) as [[[b1 b2] b3]|];
    try contradiction;
    (split; [intros E; try discriminate; eauto 6
            |intros (a & b & Ea & Eb & L); try discriminate;
             try reflexivity; injection Ea as <-; injection Eb as <-;
             cbn in *; destruct L as [L|L]; try injection L as -> -> ->; lia]).
Qed.

Lemma float_eqb_key (x y : float) :
  PrimFloat.eqb x y = true <->
  exists a, key (Prim2SF x) = Some a /\ key (Prim2SF y) = Some a.
Proof.
  rewrite eqb_spec. unfold SFeqb.
  pose proof (SFcompare_key (Prim2SF x) (Prim2SF y)) as H.
  destruct (SFcompare (Prim2SF x) (Prim2SF y)) as [[| |]|],
    (key (Prim2SF x)) as [[[a1 a2] a3]|], (key (Prim2SF y)) as [[[b1 b2] b3]|];
    try contradiction;
    (split; [intros E; try discriminate; rewrite H; eauto
            |intros (a & Ea & Eb); try discriminate;
             try reflexivity; injection Ea as <-; injection Eb as E1 E2 E3;
             cbn in *; lia]).
Qed.

Ltac to_keys :=
  repeat match goal with
    | H : PrimFloat.ltb _ _ = true |- _ =>
        apply float_ltb_key in H; destruct H as (? & ? & ? & ? & ?)
    | H : PrimFloat.leb _ _ = true |- _ =>
        apply float_leb_key in H; destruct H as (? & ? & ? & ? & ?)
    | H : PrimFloat.eqb _ _ = true |- _ =>
        apply float_eqb_key in H; destruct H as (? & ? & ?)
    end;
  repeat match goal with
    | H1 : key ?x = Some ?a, H2 : key ?x = Some ?b |- _ =>
        assert (a = b) by congruence; subst b; clear H2
    end.

Ltac lex_lia :=
  repeat match goal with
    | a : (Z * Z * Z)%type |- _ => destruct a as [[? ?] ?]
    end;
  unfold lexlt in *;
  repeat match goal with
    | H : _ \/ (_, _, _) = (_, _, _) |- _ => destruct H as [H|H]
    | H : (_, _, _) = (_, _, _) |- _ => injection H as ? ? ?
    end;
  try lia.

#[export] Instance float64_CompareLaws : @CompareLaws float float64_Compare.
Proof.
  split; cbn [eqb ltb leb float64_Compare].
  - intros x y. apply eq_true_iff_eq.
    rewrite !float_eqb_key. split; intros (a & ? & ?); eauto.
  - intros x y E. apply not_true_is_false. intros L. to_keys. lex_lia.
  - intros x y z E. apply eq_true_iff_eq. rewrite !float_ltb_key.
    to_keys. split; intros (a & b & ? & ? & ?); to_keys; eauto 6.
  - intros x y z E. apply eq_true_iff_eq. rewrite !float_ltb_key.
    to_keys. split; intros (a & b & ? & ? & ?); to_keys; eauto 6.
  - intros x. apply not_true_is_false. intros L. to_keys. lex_lia.
  - intros x y z L1 L2. to_keys. apply float_ltb_key.
    eexists _, _. repeat split; eauto. lex_lia.
  - intros x y z L1 L2. to_keys. apply float_ltb_key.
    eexists _, _. repeat split; eauto. lex_lia.
  - intros x y z L1 L2. to_keys. apply float_ltb_key.
    eexists _, _. repeat split; eauto. lex_lia.
  - intros x y L N. to_keys. apply float_ltb_key.
    eexists _, _. repeat split; eauto.
    match goal with H : _ \/ _ |- _ => destruct H as [H|H]; [exact H|] end.
    subst. exfalso. apply not_true_iff_false in N. apply N.
    apply float_eqb_key. eauto.
Qed.

(** [math.Abs] never returns a negative number: its result is NaN, or
    at least 0. *)
Lemma float_abs_not_negative (x : float) :
  PrimFloat.ltb (PrimFloat.abs x) 0 = false
  /\ (PrimFloat.eqb (PrimFloat.abs x) (PrimFloat.abs x) = true ->
      PrimFloat.leb 0 (PrimFloat.abs x) = true).
Proof.
  rewrite ltb_spec, leb_spec, eqb_spec, abs_spec.
  change (Prim2SF 0) with (S754_zero false).
  destruct (Prim2SF x) as [s|s| |s m e]; cbn; auto.
Qed.

(* ================================================================= *)
(** ** Area *)

Section AreaFacts.

Context {F : Type} {arith : Arith F}.

Lemma lineStringArea_is_Abs (ls : LineString F) (a : F) :
  lineStringArea ls = Some a -> a = zero \/ exists x, a = Abs x.
Proof.
  unfold lineStringArea.
  destruct (Go.len ls =? 0)%Z; [intros [= <-]; now left|].
  destruct (Go.fold _ _ _) as [area|]; [|discriminate]. cbn [Go.bind].
  destruct (Go.index ls (Go.len ls - 1)) as [pl|]; [|discriminate].
  destruct (Go.index ls 0) as [p0|]; [|discriminate].
  destruct (Go.index ls (Go.len ls - 1 - 1)) as [pm|]; [|discriminate].
  destruct (Go.index ls 1) as [p1|]; [|discriminate].
  cbn [Go.bind]. intros [= <-]. right. eauto.
Qed.

(** [Area] is the outer ring's area with the holes' areas taken off one
    after the other. *)
Lemma Area_unfold (r0 : LineString F) (holes : list (LineString F)) :
  Area (r0 :: holes) =
  Go.bind (lineStringArea r0) (fun area =>
    fold_left
      (fun acc h => Go.bind acc (fun area =>
                    Go.bind (lineStringArea h) (fun x => Some (sub area x))))
      holes (Some area)).
Proof.
  unfold Area. rewrite index_head. cbn [Go.bind].
  destruct (lineStringArea r0) as [area|]; [|reflexivity]. cbn [Go.bind].
  pose proof (fold_over_tail
                (fun h area => Go.bind (lineStringArea h)
                                 (fun x => Some (sub area x)))
                holes [r0] area) as E.
  cbn [app] in E. change (Go.len [r0]) with 1%Z in E.
  exact E.
Qed.

Lemma Area_single_ring (ring : LineString F) :
  Area [ring] = lineStringArea ring.
Proof.
  rewrite Area_unfold. now destruct (lineStringArea ring).
Qed.

(** [Area] sees the rings only through [lineStringArea]. *)
Lemma Area_by_ring (p q : Polygon F) :
  map lineStringArea p = map lineStringArea q -> Area p = Area q.
Proof.
  destruct p as [|r0 hs], q as [|r0' hs']; try discriminate; [reflexivity|].
  cbn [map]. intros [= E0 E]. rewrite !Area_unfold, E0.
  destruct (lineStringArea r0') as [area|]; [|reflexivity]. cbn [Go.bind].
  generalize (Some area). revert hs' E.
  induction hs as [|h hs IH]; intros [|h' hs'] E acc; try discriminate;
    [reflexivity|].
  cbn [map] in E. injection E as Eh E. cbn [fold_left]. rewrite Eh. auto.
Qed.

End AreaFacts.




(* ================================================================= *)
(** ** Containment and distance of a polygon *)

Section ContainsFacts.

Context {F : Type} {arith : Arith F} {compare : Compare F}.
Variable boundContains : LineString F -> Point F -> option bool.
Variable ringDistanceFrom : LineString F -> Point F -> option F.

Lemma Contains_unfold (r0 : LineString F) (holes : list (LineString F))
      (point : Point F) :
  Contains boundContains (r0 :: holes) point =
  Go.bind (lineStringContains boundContains r0 point) (fun c =>
    if negb c then Some false
    else match walk (holeTest boundContains point) holes tt with
         | Some (Go.Next _) => Some true
         | Some (Go.Return b) => Some b
         | None => None
         end).
Proof.
  unfold Contains. rewrite index_head. cbn [Go.bind].
  destruct (lineStringContains boundContains r0 point) as [c|]; [|reflexivity]. cbn [Go.bind].
  destruct c; [|reflexivity]. cbn [negb].
  pose proof (for_over_tail (holeTest boundContains point) holes [r0] tt) as E.
  cbn [app] in E. change (Go.len [r0]) with 1%Z in E.
  unfold holeTest in E at 1.
  match goal with
  | |- Go.bind ?x _ = _ => match type of E with ?y = _ => change x with y end
  end.
  rewrite E. now destruct (walk (holeTest boundContains point) holes tt) as [[u|b]|].
Qed.

Lemma Contains_single_ring (ring : LineString F) (point : Point F) :
  Contains boundContains [ring] point = lineStringContains boundContains ring point.
Proof.
  rewrite Contains_unfold.
  destruct (lineStringContains boundContains ring point) as [[|]|]; reflexivity.
Qed.

(** The hole loop runs to its end exactly when no hole contains the
    point. *)
Lemma holes_all_miss (point : Point F) (holes : list (LineString F)) :
  walk (holeTest boundContains point) holes tt = Some (Go.Next tt) <->
  Forall (fun h => lineStringContains boundContains h point = Some false) holes.
Proof.
  induction holes as [|h holes IH]; cbn [walk].
  - split; auto.
  - unfold holeTest at 1.
    destruct (lineStringContains boundContains h point) as [[|]|] eqn:E; cbn [Go.bind].
    + split; [discriminate|]. intros H. inversion H; congruence.
    + rewrite IH. split; [now constructor|]. intros H. now inversion H.
    + split; [discriminate|]. intros H. inversion H; congruence.
Qed.

(** The hole loop only ever returns false. *)
Lemma holes_return_false (point : Point F) (holes : list (LineString F))
      (b : bool) :
  walk (holeTest boundContains point) holes tt = Some (Go.Return b) -> b = false.
Proof.
  induction holes as [|h holes IH]; cbn [walk]; [discriminate|].
  unfold holeTest at 1.
  destruct (lineStringContains boundContains h point) as [[|]|]; cbn [Go.bind];
    [intros [= <-]; reflexivity|exact IH|discriminate].
Qed.

(** When no hole makes the code panic and some hole contains the point,
    the hole loop returns false. *)
Lemma holes_one_hit (point : Point F) (holes : list (LineString F)) :
  Forall (fun h => lineStringContains boundContains h point <> None) holes ->
  Exists (fun h => lineStringContains boundContains h point = Some true) holes ->
  walk (holeTest boundContains point) holes tt = Some (Go.Return false).
Proof.
  induction holes as [|h holes IH]; intros Hall Hex; [inversion Hex|].
  cbn [walk]. unfold holeTest at 1.
  inversion Hall as [|? ? Hh Hall']; subst.
  destruct (lineStringContains boundContains h point) as [[|]|] eqn:E; cbn [Go.bind];
    [reflexivity| |congruence].
  apply IH; [assumption|].
  inversion Hex as [? ? Hhit|]; subst; [congruence|assumption].
Qed.

Lemma Contains_true_iff (r0 : LineString F) (holes : list (LineString F))
      (point : Point F) :
  Contains boundContains (r0 :: holes) point = Some true <->
  lineStringContains boundContains r0 point = Some true
  /\ Forall (fun h => lineStringContains boundContains h point = Some false) holes.
Proof.
  clear ringDistanceFrom.
  rewrite Contains_unfold, <- holes_all_miss.
  destruct (lineStringContains boundContains r0 point) as [[|]|]; cbn [Go.bind negb].
  - destruct (walk (holeTest boundContains point) holes tt) as [[[]|b]|] eqn:E.
    + tauto.
    + apply holes_return_false in E. subst b.
      split; [discriminate|]. intros [_ H]. discriminate.
    + split; [discriminate|]. intros [_ H]. discriminate.
  - split; [discriminate|]. intros [H _]. discriminate.
  - split; [discriminate|]. intros [H _]. discriminate.
Qed.

Lemma Contains_hole_hit (r0 : LineString F) (holes : list (LineString F))
      (point : Point F) :
  lineStringContains boundContains r0 point = Some true ->
  Forall (fun h => lineStringContains boundContains h point <> None) holes ->
  Exists (fun h => lineStringContains boundContains h point = Some true) holes ->
  Contains boundContains (r0 :: holes) point = Some false.
Proof.
  intros H0 Hall Hex. rewrite Contains_unfold, H0. cbn [Go.bind negb].
  now rewrite holes_one_hit.
Qed.

Lemma DistanceFrom_unfold (r0 : LineString F) (holes : list (LineString F))
      (point : Point F) :
  DistanceFrom boundContains ringDistanceFrom (r0 :: holes) point =
  Go.bind (lineStringContains boundContains r0 point) (fun c =>
    if negb c then ringDistanceFrom r0 point
    else match walk (holeDistance boundContains ringDistanceFrom point) holes tt with
         | Some (Go.Next _) => Some zero
         | Some (Go.Return d) => Some d
         | None => None
         end).
Proof.
  unfold DistanceFrom. rewrite index_head. cbn [Go.bind].
  rewrite Contains_single_ring.
  destruct (lineStringContains boundContains r0 point) as [c|]; [|reflexivity]. cbn [Go.bind].
  destruct c; [|reflexivity]. cbn [negb].
  rewrite for_ext with
    (g := fun i s => Go.bind (Go.index (r0 :: holes) i)
                       (fun h => holeDistance boundContains ringDistanceFrom point h s)).
  2:{ intros i s. destruct (Go.index (r0 :: holes) i); [|reflexivity].
      cbn [Go.bind]. now rewrite Contains_single_ring. }
  pose proof (for_over_tail (holeDistance boundContains ringDistanceFrom point) holes [r0] tt) as E.
  cbn [app] in E. change (Go.len [r0]) with 1%Z in E.
  rewrite E. now destruct (walk (holeDistance boundContains ringDistanceFrom point) holes tt) as [[u|b]|].
Qed.

(** What the hole loop of [DistanceFrom] returns: nothing when no hole
    contains the point, the distance to the first hole that does
    otherwise. *)
Lemma holeDistance_walk (point : Point F) (holes : list (LineString F)) :
  match walk (holeDistance boundContains ringDistanceFrom point) holes tt with
  | Some (Go.Next _) => Forall (fun h => lineStringContains boundContains h point = Some false) holes
  | Some (Go.Return d) =>
      exists before h after,
        holes = before ++ h :: after
        /\ Forall (fun h => lineStringContains boundContains h point = Some false) before
        /\ lineStringContains boundContains h point = Some true
        /\ ringDistanceFrom h point = Some d
  | None => True
  end.
Proof.
  induction holes as [|h holes IH]; cbn [walk]; [constructor|].
  unfold holeDistance at 1.
  destruct (lineStringContains boundContains h point) as [[|]|] eqn:E; cbn [Go.bind]; [| |exact I].
  - destruct (ringDistanceFrom h point) as [d|] eqn:Ed; cbn [Go.bind];
      [|exact I].
    exists [], h, holes. repeat split; auto.
  - destruct (walk (holeDistance boundContains ringDistanceFrom point) holes tt) as [[[]|d]|];
      [now constructor| |exact I].
    destruct IH as (before & h' & after & -> & Hb & Hh & Hd).
    exists (h :: before), h', after. repeat split; auto.
Qed.

End ContainsFacts.

(* ================================================================= *)
(** ** Points on an edge of a ring *)

Section EdgeFacts.

Context {F : Type} {arith : Arith F} {compare : Compare F}.
Context {laws : CompareLaws F}.

(** On a vertical edge [rayIntersect] answers "on the segment" before
    it gets to the nudge. *)
Lemma rayIntersect_on_vertical (p s e : Point F) :
  OnVerticalEdge s e p -> rayIntersect p s e = (false, true).
Proof.
  intros (Hv & Hp & Hy). unfold rayIntersect.
  rewrite (eqb_not_ltb _ _ Hv), Hp.
  destruct (eqb (py p) (py s)) eqn:Es; [reflexivity|].
  rewrite Hv.
  destruct Hy as [[H1 H2]|[H1 H2]].
  - assert (L : ltb (py s) (py p) = true).
    { apply leb_neq_ltb; [assumption|]. now rewrite eqb_sym. }
    rewrite (ltb_leb_trans _ _ _ L H2), H1, H2. cbn [andb].
    now destruct (ltb (py e) (py s) && leb (py p) (py s) && leb (py e) (py p)).
  - assert (L : ltb (py p) (py s) = true) by now apply leb_neq_ltb.
    rewrite (leb_ltb_trans _ _ _ H1 L), H1, H2. reflexivity.
Qed.

Section Ring.

Variable boundContains : LineString F -> Point F -> option bool.

(** The edge loop of [lineStringContains] answers true as soon as it
    reaches an edge the point is on. *)
Lemma edge_loop_hit (ls : LineString F) (point s e : Point F) :
  snd (rayIntersect point s e) = true ->
  forall (idx : list Z) (c : bool),
    (forall j, In j idx -> (0 <= j /\ j + 1 < Go.len ls)%Z) ->
    (exists i, In i idx /\ Go.index ls i = Some s
               /\ Go.index ls (i + 1) = Some e) ->
    Go.for_ idx
      (fun i c =>
         Go.bind (Go.index ls i) (fun a =>
         Go.bind (Go.index ls (i + 1)) (fun b =>
           let '(inter, on) := rayIntersect point a b in
           if on then Some (Go.Return true)
           else Some (Go.Next (if inter then negb c else c)))))
      c
    = Some (Go.Return true).
Proof.
  intros Hon. induction idx as [|j idx IH]; intros c Hrange Hhit.
  - destruct Hhit as (i & [] & _).
  - cbn [Go.for_].
    destruct (index_in_range ls j) as [a Ea].
    { specialize (Hrange j (or_introl eq_refl)). lia. }
    destruct (index_in_range ls (j + 1)) as [b Eb].
    { specialize (Hrange j (or_introl eq_refl)). lia. }
    rewrite Ea, Eb. cbn [Go.bind].
    destruct (rayIntersect point a b) as [inter on] eqn:Er.
    destruct on; [reflexivity|].
    apply IH.
    + intros k Hk. apply Hrange. now right.
    + destruct Hhit as (i & [<-|Hi] & Hs & He); [|eauto].
      rewrite Hs in Ea. rewrite He in Eb.
      injection Ea as <-. injection Eb as <-.
      rewrite Er in Hon. discriminate.
Qed.

(** A point inside the bounding rectangle that [rayIntersect] finds
    on an edge of the ring is in the ring. *)
Lemma lineStringContains_on_edge (ls : LineString F) (point s e : Point F) :
  boundContains ls point = Some true ->
  Edge ls s e ->
  snd (rayIntersect point s e) = true ->
  lineStringContains boundContains ls point = Some true.
Proof.
  intros Hb Hedge Hon. unfold lineStringContains.
  rewrite Hb. cbn [Go.bind negb].
  assert (Hlen : (0 < Go.len ls)%Z).
  { destruct Hedge as [(i & Hs & _)|[Hs _]];
      apply index_Some_range in Hs; lia. }
  destruct (index_in_range ls 0) as [s0 E0]; [lia|].
  destruct (index_in_range ls (Go.len ls - 1)) as [sl El]; [lia|].
  rewrite E0, El. cbn [Go.bind].
  destruct (rayIntersect point s0 sl) as [c on] eqn:Er.
  destruct on; [reflexivity|].
  destruct Hedge as [(i & Hs & He)|[Hs He]].
  - rewrite edge_loop_hit with (s := s) (e := e); auto.
    + intros j Hj. apply range_In in Hj. lia.
    + exists i. repeat split; auto.
      apply index_Some_range in Hs. apply index_Some_range in He.
      unfold Go.range. apply in_map_iff.
      exists (Z.to_nat i). split; [lia|]. apply in_seq. lia.
  - rewrite Hs in E0. rewrite He in El.
    injection E0 as <-. injection El as <-.
    rewrite Er in Hon. discriminate.
Qed.

End Ring.

(** *** The bounding rectangle *)

Lemma Covers_self (v : Point F) : Covers (mkRect v v) v.
Proof. repeat split; apply ltb_irrefl. Qed.

Lemma Extend_covers_new (r : Rect F) (p : Point F) :
  Covers (Rect_Extend r p) p.
Proof.
  unfold Covers, Rect_Extend, fmin, fmax. cbn [Min Max px py].
  repeat split.
  - destruct (ltb (px p) (px (Min r))) eqn:E; [apply ltb_irrefl|exact E].
  - destruct (ltb (px (Max r)) (px p)) eqn:E; [apply ltb_irrefl|exact E].
  - destruct (ltb (py p) (py (Min r))) eqn:E; [apply ltb_irrefl|exact E].
  - destruct (ltb (py (Max r)) (py p)) eqn:E; [apply ltb_irrefl|exact E].
Qed.

Lemma ltb_false_trans_l (v p m : F) :
  ltb v m = false -> ltb p m = true -> ltb v p = false.
Proof.
  intros Hv Hp. apply not_true_is_false. intros L.
  rewrite (ltb_trans _ _ _ L Hp) in Hv. discriminate.
Qed.

Lemma ltb_false_trans_r (v p m : F) :
  ltb m v = false -> ltb m p = true -> ltb p v = false.
Proof.
  intros Hv Hp. apply not_true_is_false. intros L.
  rewrite (ltb_trans _ _ _ Hp L) in Hv. discriminate.
Qed.

Lemma Extend_covers_old (r : Rect F) (p v : Point F) :
  Covers r v -> Covers (Rect_Extend r p) v.
Proof.
  intros (H1 & H2 & H3 & H4).
  unfold Covers, Rect_Extend, fmin, fmax. cbn [Min Max px py].
  repeat split.
  - destruct (ltb (px p) (px (Min r))) eqn:E;
      [eapply ltb_false_trans_l; eassumption|assumption].
  - destruct (ltb (px (Max r)) (px p)) eqn:E;
      [eapply ltb_false_trans_r; eassumption|assumption].
  - destruct (ltb (py p) (py (Min r))) eqn:E;
      [eapply ltb_false_trans_l; eassumption|assumption].
  - destruct (ltb (py (Max r)) (py p)) eqn:E;
      [eapply ltb_false_trans_r; eassumption|assumption].
Qed.

Lemma fold_Extend_covers (rest : list (Point F)) :
  forall (r : Rect F) (v : Point F),
    Covers r v \/ In v rest ->
    Covers (fold_left Rect_Extend rest r) v.
Proof.
  induction rest as [|q rest IH]; intros r v [H|H]; cbn [fold_left].
  - assumption.
  - destruct H.
  - apply IH. left. now apply Extend_covers_old.
  - destruct H as [->|H].
    + apply IH. left. apply Extend_covers_new.
    + apply IH. now right.
Qed.

(** The bounding rectangle of a ring leaves none of its points out. *)
Lemma Bound_covers (ls : LineString F) (v : Point F) :
  In v ls -> exists r, Bound ls = Some r /\ Covers r v.
Proof.
  destruct ls as [|p0 rest]; [intros []|]. intros [->|H].
  - eexists. split; [reflexivity|].
    apply fold_Extend_covers. left. apply Covers_self.
  - eexists. split; [reflexivity|].
    apply fold_Extend_covers. now right.
Qed.

(** A point on a vertical edge is inside the bounding rectangle. *)
Lemma Bound_Contains_vertical (ls : LineString F) (s e p : Point F) :
  Edge ls s e -> OnVerticalEdge s e p ->
  Bound_Contains ls p = Some true.
Proof.
  intros Hedge (Hv & Hp & Hy).
  assert (Hs : In s ls /\ In e ls).
  { destruct Hedge as [(i & Hs & He)|[Hs He]];
      split; eapply index_Some_In; eassumption. }
  destruct Hs as [Hs He].
  destruct (Bound_covers ls s Hs) as (r & Er & S1 & S2 & S3 & S4).
  destruct (Bound_covers ls e He) as (r' & Er' & E1 & E2 & E3 & E4).
  rewrite Er in Er'. injection Er' as <-.
  unfold Bound_Contains. rewrite Er. cbn [Go.bind]. f_equal.
  unfold Rect_Contains.
  rewrite (eqb_ltb_l _ _ (px (Min r)) Hp), S1.
  rewrite (eqb_ltb_r _ _ (px (Max r)) Hp), S2.
  assert (Y1 : ltb (py p) (py (Min r)) = false).
  { apply not_true_is_false. intros L.
    destruct Hy as [[H1 H2]|[H1 H2]].
    - rewrite (leb_ltb_trans _ _ _ H1 L) in S3. discriminate.
    - rewrite (leb_ltb_trans _ _ _ H1 L) in E3. discriminate. }
  assert (Y2 : ltb (py (Max r)) (py p) = false).
  { apply not_true_is_false. intros L.
    destruct Hy as [[H1 H2]|[H1 H2]].
    - rewrite (ltb_leb_trans _ _ _ L H2) in E4. discriminate.
    - rewrite (ltb_leb_trans _ _ _ L H2) in S4. discriminate. }
  rewrite Y1, Y2. reflexivity.
Qed.

End EdgeFacts.

(* ================================================================= *)
(** ** The properties of containment and distance *)



(** C5.  When a ring has a vertical edge and the query point has the x
    of that edge and a y between the y of its ends, ends included,
    [rayIntersect] reports the point on that edge and
    [lineStringContains] returns true. *)
Theorem vertical_edge_point_contained
  (ls : LineString float) (s e point : Point float) :
  Edge ls s e -> OnVerticalEdge s e point ->
  rayIntersect point s e = (false, true)
  /\ lineStringContains Bound_Contains ls point = Some true.
Proof.
  intros Hedge Hon.
  pose proof (rayIntersect_on_vertical point s e Hon) as Hray.
  split; [assumption|].
  apply lineStringContains_on_edge with (s := s) (e := e).
  - now apply Bound_Contains_vertical with (s := s) (e := e).
  - assumption.
  - now rewrite Hray.
Qed.

Lemma vertical_edge_point_contained_witness :
  rayIntersect (pt 1 2) (pt 1 3) (pt 1 1) = (false, true)
  /\ lineStringContains Bound_Contains hole2 (pt 1 2) = Some true.
Proof.
  apply (vertical_edge_point_contained hole2 (pt 1 3) (pt 1 1) (pt 1 2)).
  - left. exists 3%Z. split; reflexivity.
  - split; [reflexivity|]. split; [reflexivity|].
    right. split; reflexivity.
Defined.

(** C3, as stated, fails: at the point (1, 2), on the boundary of the
    hole of the square with the square hole, [DistanceFrom] is 0 and
    [Contains] is false. *)
Lemma DistanceFrom_zero_on_hole_boundary :
  ~ (forall (p : Polygon float) (point : Point float) (d : float),
        p <> [] ->
        DistanceFrom64 p point = Some d ->
        (eqb d zero = true <-> Contains64 p point = Some true)).
Proof.
  intros H.
  specialize (H donut (pt 1 2) 0%float).
  assert (C : Contains64 donut (pt 1 2) = Some true).
  { apply H; [discriminate|vm_compute; reflexivity|reflexivity]. }
  vm_compute in C. discriminate.
Qed.

Lemma holes_first_hit {F : Type} {arith : Arith F} {compare : Compare F}
      (bc : LineString F -> Point F -> option bool) (point : Point F)
      (before after : list (LineString F)) (h : LineString F) :
  Forall (fun h => lineStringContains bc h point = Some false) before ->
  lineStringContains bc h point = Some true ->
  walk (holeTest bc point) (before ++ h :: after) tt = Some (Go.Return false).
Proof.
  intros Hb Hh. induction Hb as [|h' before Hh' Hb IH]; cbn [app walk].
  - unfold holeTest at 1. now rewrite Hh.
  - unfold holeTest at 1. rewrite Hh'. exact IH.
Qed.

(** C3, amended.  When [Contains] is true, [DistanceFrom] is 0.  When
    [DistanceFrom] returns a distance, either [Contains] is true and the
    distance is 0, or [Contains] is false and the distance is that of
    the point to a ring of the polygon: the outer ring when the point is
    not in it, the first hole ring that contains the point otherwise. *)
Theorem DistanceFrom_and_Contains
  (bc : LineString float -> Point float -> option bool)
  (rd : LineString float -> Point float -> option float)
  (r0 : LineString float) (holes : list (LineString float))
  (point : Point float) :
  (Contains bc (r0 :: holes) point = Some true ->
   DistanceFrom bc rd (r0 :: holes) point = Some zero)
  /\ (forall d : float,
        DistanceFrom bc rd (r0 :: holes) point = Some d ->
        (Contains bc (r0 :: holes) point = Some true /\ d = zero)
        \/ (Contains bc (r0 :: holes) point = Some false
            /\ lineStringContains bc r0 point = Some false
            /\ rd r0 point = Some d)
        \/ (Contains bc (r0 :: holes) point = Some false
            /\ exists before h after,
                 holes = before ++ h :: after
                 /\ Forall (fun h => lineStringContains bc h point = Some false)
                      before
                 /\ lineStringContains bc h point = Some true
                 /\ rd h point = Some d)).
Proof.
  split.
  - intros Hc. apply Contains_true_iff in Hc. destruct Hc as [H0 Hall].
    rewrite DistanceFrom_unfold, H0. cbn [Go.bind negb].
    pose proof (holeDistance_walk bc rd point holes) as W.
    destruct (walk (holeDistance bc rd point) holes tt) as [[[]|d]|] eqn:E.
    + reflexivity.
    + destruct W as (before & h & after & -> & _ & Hh & _).
      rewrite Forall_forall in Hall.
      rewrite (Hall h) in Hh; [discriminate|].
      apply in_or_app. right. now left.
    + exfalso. clear W. revert E.
      induction Hall as [|h holes Hh Hall IH]; cbn [walk]; [discriminate|].
      unfold holeDistance at 1. rewrite Hh. exact IH.
  - intros d. rewrite DistanceFrom_unfold, Contains_unfold.
    destruct (lineStringContains bc r0 point) as [[|]|] eqn:E0;
      cbn [Go.bind negb]; [| |discriminate].
    + pose proof (holeDistance_walk bc rd point holes) as W.
      destruct (walk (holeDistance bc rd point) holes tt) as [[[]|d']|];
        [| |discriminate].
      * intros [= <-]. left. apply holes_all_miss in W. now rewrite W.
      * intros [= <-]. right. right.
        destruct W as (before & h & after & -> & Hb & Hh & Hd).
        rewrite (holes_first_hit bc point before after h Hb Hh).
        split; [reflexivity|]. exists before, h, after. auto.
    + intros Hd. right. left. auto.
Qed.

Lemma DistanceFrom_and_Contains_witness :
  DistanceFrom64 donut (pt 0.5 0.5) = Some zero.
Proof.
  apply (DistanceFrom_and_Contains Bound_Contains LineString_DistanceFrom
           outer4 [hole2] (pt 0.5 0.5)).
  vm_compute. reflexivity.
Defined.

(* ================================================================= *)
(** ** Reversing a ring *)

Section ShoelaceFacts.

Context {F : Type} {arith : Arith F}.

Lemma index_vertex (ls : LineString F) (k : nat) :
  (k < List.length ls)%nat ->
  Go.index ls (Z.of_nat k) = Some (vertex ls k).
Proof.
  intros Hk. unfold Go.index, vertex.
  destruct (Z.ltb_spec (Z.of_nat k) 0); [lia|].
  rewrite Nat2Z.id. now apply nth_error_nth'.
Qed.

Lemma fold_map_sum (g : nat -> F) (phi : nat -> Z)
      (body : Z -> F -> option F) (l : list nat) :
  (forall k acc, In k l -> body (phi k) acc = Some (add acc (g k))) ->
  forall acc,
    Go.fold (map phi l) body acc
    = Some (fold_left (fun acc k => add acc (g k)) l acc).
Proof.
  induction l as [|k l IH]; intros H acc; [reflexivity|].
  cbn [map Go.fold fold_left]. rewrite H by now left.
  apply IH. intros k' acc' Hk'. apply H. now right.
Qed.

(** [lineStringArea] on a ring of two points or more. *)
Lemma lineStringArea_shoelace (ls : LineString F) :
  (2 <= List.length ls)%nat ->
  lineStringArea ls = Some (Abs (div (shoelaceSum ls) two)).
Proof.
  intros Hn. unfold lineStringArea, shoelaceSum.
  assert (Hlen : Go.len ls = Z.of_nat (List.length ls)) by reflexivity.
  destruct (Z.eqb_spec (Go.len ls) 0) as [E|_]; [lia|].
  unfold Go.range.
  replace (Z.to_nat (Go.len ls - 1 - 1)) with (List.length ls - 2)%nat by lia.
  rewrite fold_map_sum with (g := shoelaceTerm ls).
  2:{ intros k acc Hk. apply in_seq in Hk.
      replace (1 + Z.of_nat k)%Z with (Z.of_nat (S k)) by lia.
      replace (Z.of_nat (S k) + 1)%Z with (Z.of_nat (S (S k))) by lia.
      replace (Z.of_nat (S k) - 1)%Z with (Z.of_nat k) by lia.
      rewrite !index_vertex by lia. reflexivity. }
  cbn [Go.bind].
  replace (Go.len ls - 1)%Z with (Z.of_nat (List.length ls - 1)) by lia.
  replace (Z.of_nat (List.length ls - 1) - 1)%Z
    with (Z.of_nat (List.length ls - 2)) by lia.
  change 0%Z with (Z.of_nat 0). change 1%Z with (Z.of_nat 1).
  rewrite !index_vertex by lia. reflexivity.
Qed.


End ShoelaceFacts.

Section RealArea.

Local Open Scope R_scope.

Lemma Rsum_cons (x : R) (l : list R) : Rsum (x :: l) = x + Rsum l.
Proof. reflexivity. Qed.

Lemma fold_left_Rsum (g : nat -> R) (l : list nat) (acc : R) :
  fold_left (fun acc k => add acc (g k)) l acc = acc + Rsum (map g l).
Proof.
  revert acc. induction l as [|k l IH]; intros acc; cbn [fold_left map].
  - unfold Rsum. cbn. lra.
  - rewrite IH, Rsum_cons. cbn [add real_Arith]. lra.
Qed.

Lemma Rsum_app (l1 l2 : list R) : Rsum (l1 ++ l2) = Rsum l1 + Rsum l2.
Proof.
  induction l1 as [|x l1 IH]; cbn [app].
  - unfold Rsum at 2. cbn. lra.
  - rewrite !Rsum_cons, IH. lra.
Qed.

Lemma Rsum_opp (g : nat -> R) (l : list nat) :
  Rsum (map (fun k => - g k) l) = - Rsum (map g l).
Proof.
  induction l as [|k l IH]; cbn [map].
  - unfold Rsum. cbn. lra.
  - rewrite !Rsum_cons, IH. lra.
Qed.

(** Summing from the other end. *)
Lemma Rsum_mirror (m : nat) :
  forall g : nat -> R,
    Rsum (map (fun k => g (m - 1 - k)%nat) (seq 0 m)) = Rsum (map g (seq 0 m)).
Proof.
  induction m as [|m IH]; intros g; [reflexivity|].
  rewrite seq_S at 1. rewrite map_app, Rsum_app. cbn [map plus].
  replace (S m - 1 - m)%nat with 0%nat by lia.
  rewrite map_ext_in with (g := fun k => g (S (m - 1 - k))).
  2:{ intros k Hk. apply in_seq in Hk. f_equal. lia. }
  rewrite (IH (fun k => g (S k))).
  cbn [seq map]. rewrite <- seq_shift, map_map, !Rsum_cons.
  unfold Rsum at 2. cbn. lra.
Qed.

Lemma vertex_rev (ls : LineString R) (k : nat) :
  (k < List.length ls)%nat ->
  vertex (rev ls) k = vertex ls (List.length ls - 1 - k).
Proof.
  intros Hk. unfold vertex. rewrite rev_nth by assumption.
  f_equal. lia.
Qed.

(** In exact arithmetic, reversing the ring negates the sum. *)
Lemma shoelaceSum_rev (ls : LineString R) :
  (2 <= List.length ls)%nat ->
  shoelaceSum (rev ls) = - shoelaceSum ls.
Proof.
  intros Hn. unfold shoelaceSum. rewrite length_rev.
  set (n := List.length ls) in *.
  rewrite !fold_left_Rsum.
  rewrite map_ext_in with
    (f := shoelaceTerm (rev ls))
    (g := fun k => - shoelaceTerm ls (n - 2 - 1 - k)).
  2:{ intros k Hk. apply in_seq in Hk. unfold shoelaceTerm.
      rewrite !vertex_rev by (fold n; lia). fold n.
      replace (n - 1 - S k)%nat with (S (n - 2 - 1 - k)) by lia.
      replace (n - 1 - S (S k))%nat with (n - 2 - 1 - k)%nat by lia.
      replace (n - 1 - k)%nat with (S (S (n - 2 - 1 - k))) by lia.
      cbn [mul sub real_Arith]. lra. }
  rewrite Rsum_opp, (Rsum_mirror (n - 2) (shoelaceTerm ls)).
  rewrite !vertex_rev by (fold n; lia). fold n.
  replace (n - 1 - (n - 1))%nat with 0%nat by lia.
  replace (n - 1 - 0)%nat with (n - 1)%nat by lia.
  replace (n - 1 - (n - 2))%nat with 1%nat by lia.
  replace (n - 1 - 1)%nat with (n - 2)%nat by lia.
  cbn [add mul sub zero real_Arith]. lra.
Qed.

Lemma lineStringArea_rev (ls : LineString R) :
  lineStringArea (rev ls) = lineStringArea ls.
Proof.
  destruct ls as [|p [|q ls]]; [reflexivity|reflexivity|].
  rewrite !lineStringArea_shoelace.
  2:{ cbn [List.length]. lia. }
  2:{ rewrite length_rev. cbn [List.length]. lia. }
  rewrite shoelaceSum_rev by (cbn [List.length]; lia).
  cbn [Abs div two real_Arith]. f_equal.
  replace (- shoelaceSum (p :: q :: ls) / 2) with (- (shoelaceSum (p :: q :: ls) / 2)) by lra.
  apply Rabs_Ropp.
Qed.

End RealArea.



(* ================================================================= *)
(** ** The operations leave the memory as they found it *)

Section FrameFacts.

Context {F : Type} {arith : Arith F} {compare : Compare F}.

Lemma bind_lift {A B : Type} (c : Stateful.M F A) (k : A -> Stateful.M F B)
      (o : option A) (k' : A -> option B) (m : Stateful.Memory F) :
  c m = Stateful.lift o m ->
  (forall a, o = Some a -> k a m = Stateful.lift (k' a) m) ->
  Stateful.bind c k m = Stateful.lift (Go.bind o k') m.
Proof.
  unfold Stateful.bind, Stateful.lift. intros -> H.
  destruct o as [a|]; cbn; auto.
Qed.

Lemma fold_lift {S : Type} (body_m : Z -> S -> Stateful.M F S)
      (body : Z -> S -> option S) (m : Stateful.Memory F) (idx : list Z) :
  (forall i s, body_m i s m = Stateful.lift (body i s) m) ->
  forall s, Stateful.fold idx body_m s m
            = Stateful.lift (Go.fold idx body s) m.
Proof.
  intros H. induction idx as [|i idx IH]; intros s; [reflexivity|].
  cbn [Stateful.fold Go.fold]. unfold Stateful.bind. rewrite H.
  unfold Stateful.lift at 1.
  destruct (body i s) as [s'|]; [apply IH|reflexivity].
Qed.

Lemma for_lift {S R : Type} (body_m : Z -> S -> Stateful.M F (Go.flow S R))
      (body : Z -> S -> option (Go.flow S R)) (m : Stateful.Memory F)
      (idx : list Z) :
  (forall i s, body_m i s m = Stateful.lift (body i s) m) ->
  forall s, Stateful.for_ idx body_m s m
            = Stateful.lift (Go.for_ idx body s) m.
Proof.
  intros H. induction idx as [|i idx IH]; intros s; [reflexivity|].
  cbn [Stateful.for_ Go.for_]. unfold Stateful.bind. rewrite H.
  unfold Stateful.lift at 1.
  destruct (body i s) as [[s'|r]|]; [apply IH|reflexivity|reflexivity].
Qed.

Lemma load_lift (m : Stateful.Memory F) (ls : Z) (ring : LineString F)
      (i : Z) :
  Go.index (Stateful.heap m) ls = Some ring ->
  Stateful.load ls i m = Stateful.lift (Go.index ring i) m.
Proof. intros H. unfold Stateful.load. now rewrite H. Qed.

Lemma length_lift (m : Stateful.Memory F) (ls : Z) (ring : LineString F) :
  Go.index (Stateful.heap m) ls = Some ring ->
  Stateful.length ls m = Stateful.lift (Some (Go.len ring)) m.
Proof. intros H. unfold Stateful.length. now rewrite H. Qed.

(** The frame of a call ends with the result the function returns. *)
Lemma rayIntersect_body_result (point a b : Point F) :
  fst (Stateful.rayIntersect_body (Stateful.mkFrame point a b))
  = rayIntersect point a b.
Proof.
  unfold Stateful.rayIntersect_body, rayIntersect.
  cbn [Stateful.p Stateful.s Stateful.e].
  destruct (ltb (px b) (px a)); cbn [Stateful.p Stateful.s Stateful.e];
    repeat match goal with
      | |- context [if ?c then _ else _] => destruct c; cbn [fst]
      end; reflexivity.
Qed.

Lemma rayIntersect_lift (point a b : Point F) (m : Stateful.Memory F) :
  Stateful.rayIntersect point a b m
  = Stateful.lift (Some (rayIntersect point a b)) m.
Proof.
  unfold Stateful.rayIntersect, Stateful.ret, Stateful.lift.
  now rewrite rayIntersect_body_result.
Qed.

Lemma lineStringArea_lift (m : Stateful.Memory F) (ls : Z)
      (ring : LineString F) :
  Go.index (Stateful.heap m) ls = Some ring ->
  Stateful.lineStringArea ls m = Stateful.lift (lineStringArea ring) m.
Proof.
  intros H. unfold Stateful.lineStringArea, lineStringArea.
  unfold Stateful.bind at 1. rewrite (length_lift m ls ring H). cbn [Stateful.lift].
  destruct (Go.len ring =? 0)%Z; [reflexivity|].
  apply bind_lift.
  { apply fold_lift. intros i area.
    repeat (apply bind_lift; [now apply load_lift|intros ? _]).
    reflexivity. }
  intros area _. cbv zeta.
  repeat (apply bind_lift; [now apply load_lift|intros ? _]).
  reflexivity.
Qed.

Lemma ringCentroid_lift (m : Stateful.Memory F) (ls : Z)
      (ring : LineString F) :
  Go.index (Stateful.heap m) ls = Some ring ->
  Stateful.ringCentroid ls m = Stateful.lift (ringCentroid ring) m.
Proof.
  intros H. unfold Stateful.ringCentroid, ringCentroid.
  unfold Stateful.bind at 1. rewrite (length_lift m ls ring H).
  cbn [Stateful.lift].
  apply bind_lift; [now apply load_lift|intros r0 _]. cbv zeta.
  apply bind_lift.
  { apply fold_lift. intros i [[cx cy] area].
    repeat (apply bind_lift; [now apply load_lift|intros ? _]).
    reflexivity. }
  intros [[cx cy] area] _. reflexivity.
Qed.

(** Reading [p[i]] gives the address of the ring [poly[i]]. *)
Lemma Holds_index (m : Stateful.Memory F) (p : list Z) (poly : Polygon F) :
  Stateful.Holds m p poly ->
  forall i,
    match Go.index p i, Go.index poly i with
    | Some r, Some ring => Go.index (Stateful.heap m) r = Some ring
    | None, None => True
    | _, _ => False
    end.
Proof.
  intros H i. unfold Go.index.
  destruct (i <? 0)%Z; [exact I|].
  generalize (Z.to_nat i). clear i.
  induction H as [|r ring p poly Hr H IH]; intros [|n]; cbn; auto.
  apply IH.
Qed.

Lemma bind_index_lift {B : Type} (m : Stateful.Memory F) (p : list Z)
      (poly : Polygon F) (i : Z)
      (k : Z -> Stateful.M F B) (k' : LineString F -> option B) :
  Stateful.Holds m p poly ->
  (forall r ring, Go.index (Stateful.heap m) r = Some ring ->
                  k r m = Stateful.lift (k' ring) m) ->
  Stateful.bind (Stateful.lift (Go.index p i)) k m
  = Stateful.lift (Go.bind (Go.index poly i) k') m.
Proof.
  intros H Hk. pose proof (Holds_index m p poly H i) as Hi.
  unfold Stateful.bind. unfold Stateful.lift at 1.
  destruct (Go.index p i) as [r|], (Go.index poly i) as [ring|];
    try contradiction; cbn [Go.bind]; auto.
Qed.

Lemma Holds_len (m : Stateful.Memory F) (p : list Z) (poly : Polygon F) :
  Stateful.Holds m p poly -> Go.len p = Go.len poly.
Proof.
  intros H. unfold Go.len. f_equal. eapply Forall2_length. exact H.
Qed.

Lemma Area_lift (m : Stateful.Memory F) (p : list Z) (poly : Polygon F) :
  Stateful.Holds m p poly ->
  Stateful.Area p m = Stateful.lift (Area poly) m.
Proof.
  intros H. unfold Stateful.Area, Area. rewrite (Holds_len m p poly H).
  apply bind_index_lift; [assumption|intros r0 ring0 H0].
  apply bind_lift; [now apply lineStringArea_lift|intros area _].
  apply fold_lift. intros i a.
  apply bind_index_lift; [assumption|intros ri ringi Hi].
  apply bind_lift; [now apply lineStringArea_lift|intros h _].
  reflexivity.
Qed.

Lemma CentroidArea_lift (m : Stateful.Memory F) (p : list Z)
      (poly : Polygon F) :
  Stateful.Holds m p poly ->
  Stateful.CentroidArea p m = Stateful.lift (CentroidArea poly) m.
Proof.
  intros H. unfold Stateful.CentroidArea, CentroidArea.
  rewrite (Holds_len m p poly H).
  apply bind_index_lift; [assumption|intros r0 ring0 H0].
  apply bind_lift; [now apply ringCentroid_lift|intros [centroid area] _].
  apply bind_lift.
  { apply fold_lift. intros i [[holeArea hcx] hcy].
    apply bind_index_lift; [assumption|intros ri ringi Hi].
    apply bind_lift; [now apply ringCentroid_lift|intros [hc ha] _].
    reflexivity. }
  intros [[holeArea hcx] hcy] _. reflexivity.
Qed.

Section Callees.

Variable boundContains_m : Z -> Point F -> Stateful.M F bool.
Variable boundContains : LineString F -> Point F -> option bool.
Hypothesis boundContains_reads :
  forall point, Stateful.ReadsOnly (fun r => boundContains_m r point)
                  (fun ring => boundContains ring point).

Variable ringDistanceFrom_m : Z -> Point F -> Stateful.M F F.
Variable ringDistanceFrom : LineString F -> Point F -> option F.
Hypothesis ringDistanceFrom_reads :
  forall point, Stateful.ReadsOnly (fun r => ringDistanceFrom_m r point)
                  (fun ring => ringDistanceFrom ring point).

Variable wktPoints_m : Z -> Stateful.M F string.
Variable wktPoints : LineString F -> string.
Hypothesis wktPoints_reads :
  Stateful.ReadsOnly wktPoints_m (fun ring => Some (wktPoints ring)).

Lemma lineStringContains_lift (m : Stateful.Memory F) (ls : Z)
      (ring : LineString F) (point : Point F) :
  Go.index (Stateful.heap m) ls = Some ring ->
  Stateful.lineStringContains boundContains_m ls point m
  = Stateful.lift (lineStringContains boundContains ring point) m.
Proof.
  intros H. unfold Stateful.lineStringContains, lineStringContains.
  apply bind_lift; [now apply boundContains_reads|intros inb _].
  destruct (negb inb); [reflexivity|].
  unfold Stateful.bind at 1. rewrite (length_lift m ls ring H).
  cbn [Stateful.lift].
  apply bind_lift; [now apply load_lift|intros s0 _].
  apply bind_lift; [now apply load_lift|intros sl _].
  unfold Stateful.bind at 1. rewrite rayIntersect_lift.
  cbn [Stateful.lift].
  destruct (rayIntersect point s0 sl) as [c on].
  destruct on; [reflexivity|].
  apply bind_lift.
  { apply for_lift. intros i c'.
    apply bind_lift; [now apply load_lift|intros a _].
    apply bind_lift; [now apply load_lift|intros b _].
    unfold Stateful.bind at 1. rewrite rayIntersect_lift.
    cbn [Stateful.lift].
    destruct (rayIntersect point a b) as [inter on].
    destruct on; reflexivity. }
  intros [c'|b] _; reflexivity.
Qed.

Lemma Contains_lift (m : Stateful.Memory F) (p : list Z)
      (poly : Polygon F) (point : Point F) :
  Stateful.Holds m p poly ->
  Stateful.Contains boundContains_m p point m
  = Stateful.lift (Contains boundContains poly point) m.
Proof.
  intros H. unfold Stateful.Contains, Contains.
  rewrite (Holds_len m p poly H).
  apply bind_index_lift; [assumption|intros r0 ring0 H0].
  apply bind_lift; [now apply lineStringContains_lift|intros c _].
  destruct (negb c); [reflexivity|].
  apply bind_lift.
  { apply for_lift. intros i [].
    apply bind_index_lift; [assumption|intros ri ringi Hi].
    apply bind_lift; [now apply lineStringContains_lift|intros h _].
    destruct h; reflexivity. }
  intros [[]|b] _; reflexivity.
Qed.

Lemma DistanceFrom_lift (m : Stateful.Memory F) (p : list Z)
      (poly : Polygon F) (point : Point F) :
  Stateful.Holds m p poly ->
  Stateful.DistanceFrom boundContains_m ringDistanceFrom_m p point m
  = Stateful.lift (DistanceFrom boundContains ringDistanceFrom poly point) m.
Proof.
  intros H. unfold Stateful.DistanceFrom, DistanceFrom.
  rewrite (Holds_len m p poly H).
  apply bind_index_lift; [assumption|intros r0 ring0 H0].
  apply bind_lift.
  { apply Contains_lift. now repeat constructor. }
  intros inRing _.
  destruct (negb inRing); [now apply ringDistanceFrom_reads|].
  apply bind_lift.
  { apply for_lift. intros i [].
    apply bind_index_lift; [assumption|intros ri ringi Hi].
    apply bind_lift.
    { apply Contains_lift. now repeat constructor. }
    intros inHole _. destruct inHole; [|reflexivity].
    apply bind_lift; [now apply ringDistanceFrom_reads|intros d _].
    reflexivity. }
  intros [[]|d] _; reflexivity.
Qed.

Lemma WKT_lift (m : Stateful.Memory F) (p : list Z) (poly : Polygon F) :
  Stateful.Holds m p poly ->
  Stateful.WKT wktPoints_m p m = Stateful.lift (WKT wktPoints poly) m.
Proof.
  intros H. unfold Stateful.WKT, WKT. rewrite (Holds_len m p poly H).
  destruct (Go.len poly =? 0)%Z; [reflexivity|].
  apply bind_index_lift; [assumption|intros r0 ring0 H0].
  unfold Stateful.bind at 1. rewrite (wktPoints_reads m r0 ring0 H0).
  cbn [Stateful.lift]. cbv zeta.
  apply bind_lift.
  { apply fold_lift. intros i buff.
    apply bind_index_lift; [assumption|intros ri ringi Hi].
    unfold Stateful.bind at 1. rewrite (wktPoints_reads m ri ringi Hi).
    reflexivity. }
  intros buff _. reflexivity.
Qed.

End Callees.

End FrameFacts.

Lemma lift_Preserves {F A : Type} (c : Stateful.M F A) (o : option A)
      (m : Stateful.Memory F) :
  c m = Stateful.lift o m -> Stateful.Preserves c m.
Proof.
  intros E a m' H. rewrite E in H. unfold Stateful.lift in H.
  destruct o; [now injection H|discriminate].
Qed.

(** A write to a backing array is seen in the memory afterwards: the
    memory model does tell a writer from a reader. *)
Lemma store_not_preserved :
  ~ Stateful.Preserves (Stateful.store 1 0 (pt 9 9)) donutMemory.
Proof.
  intros H.
  specialize (H tt _ eq_refl).
  apply (f_equal (fun m => Stateful.load 1 0 m)) in H.
  apply (f_equal (option_map (fun r => eqb (px (fst r)) 1%float))) in H.
  vm_compute in H. discriminate.
Qed.

(** C9.  With the polygon [poly] stored in memory under the addresses
    [p], and callees that only read, each of [Contains], [Area],
    [CentroidArea], [DistanceFrom] and [WKT] ends in the memory it
    started from: the backing arrays of the rings and the caller's query
    point are as before.  A call of [rayIntersect] returns its result and
    the same memory, although its body does assign to its own copy of the
    point when it nudges it. *)
Theorem operations_preserve_memory
  (boundContains_m : Z -> Point float -> Stateful.M float bool)
  (boundContains : LineString float -> Point float -> option bool)
  (ringDistanceFrom_m : Z -> Point float -> Stateful.M float float)
  (ringDistanceFrom : LineString float -> Point float -> option float)
  (wktPoints_m : Z -> Stateful.M float string)
  (wktPoints : LineString float -> string)
  (m : Stateful.Memory float) (p : list Z) (poly : Polygon float) :
  (forall point, Stateful.ReadsOnly (fun r => boundContains_m r point)
                   (fun ring => boundContains ring point)) ->
  (forall point, Stateful.ReadsOnly (fun r => ringDistanceFrom_m r point)
                   (fun ring => ringDistanceFrom ring point)) ->
  Stateful.ReadsOnly wktPoints_m (fun ring => Some (wktPoints ring)) ->
  Stateful.Holds m p poly ->
  Stateful.Preserves
    (Stateful.bind Stateful.argument (Stateful.Contains boundContains_m p)) m
  /\ Stateful.Preserves (Stateful.Area p) m
  /\ Stateful.Preserves (Stateful.CentroidArea p) m
  /\ Stateful.Preserves
       (Stateful.bind Stateful.argument
          (Stateful.DistanceFrom boundContains_m ringDistanceFrom_m p)) m
  /\ Stateful.Preserves (Stateful.WKT wktPoints_m p) m
  /\ (forall point a b,
        Stateful.rayIntersect point a b m = Some (rayIntersect point a b, m))
  /\ (exists point a b,
        eqb (px (Stateful.p (snd (Stateful.rayIntersect_body
                                    (Stateful.mkFrame point a b)))))
            (px point) = false).
Proof.
  intros Hbc Hrd Hwkt H.
  split.
  { apply lift_Preserves
      with (o := Contains boundContains poly (Stateful.query m)).
    unfold Stateful.bind, Stateful.argument. now apply Contains_lift. }
  split; [eapply lift_Preserves; apply Area_lift; exact H|].
  split; [eapply lift_Preserves; apply CentroidArea_lift; exact H|].
  split.
  { apply lift_Preserves
      with (o := DistanceFrom boundContains ringDistanceFrom poly
                   (Stateful.query m)).
    unfold Stateful.bind, Stateful.argument. now apply DistanceFrom_lift. }
  split; [eapply lift_Preserves; apply WKT_lift; [exact Hwkt|exact H]|].
  split; [intros; apply rayIntersect_lift|].
  exists (pt 1 2), (pt 1 1), (pt 3 1). vm_compute. reflexivity.
Qed.

Lemma operations_preserve_memory_witness :
  Stateful.Preserves
    (Stateful.bind Stateful.argument
       (Stateful.Contains
          (fun r point => Stateful.reading (fun ring => Bound_Contains ring point) r)
          [0; 1]%Z))
    donutMemory.
Proof.
  apply (operations_preserve_memory
           (fun r point => Stateful.reading (fun ring => Bound_Contains ring point) r)
           Bound_Contains
           (fun r point =>
              Stateful.reading (fun ring => LineString_DistanceFrom ring point) r)
           LineString_DistanceFrom
           (Stateful.reading (fun _ => Some "()"%string))
           (fun _ => "()"%string)
           donutMemory [0; 1]%Z donut).
  - intros point m r ring E. unfold Stateful.reading. now rewrite E.
  - intros point m r ring E. unfold Stateful.reading. now rewrite E.
  - intros m r ring E. unfold Stateful.reading. now rewrite E.
  - repeat constructor.
Defined.

(* ================================================================= *)
(** ** When the operations panic *)

Section PanicFacts.

Context {F : Type} {arith : Arith F}.

Lemma fold_succeeds {S : Type} (body : Z -> S -> option S) (idx : list Z) :
  (forall i s, In i idx -> body i s <> None) ->
  forall s, Go.fold idx body s <> None.
Proof.
  induction idx as [|i idx IH]; intros H s; cbn [Go.fold]; [discriminate|].
  destruct (body i s) as [s'|] eqn:E.
  - apply IH. intros j s'' Hj. apply H. now right.
  - exfalso. apply (H i s); [now left|assumption].
Qed.

Lemma fold_left_bind_None {A B : Type} (f : B -> A -> option B) (l : list A) :
  fold_left (fun acc a => Go.bind acc (fun b => f b a)) l None = None.
Proof. induction l; cbn; auto. Qed.

Lemma lineStringArea_None_iff (ls : LineString F) :
  lineStringArea ls = None <-> List.length ls = 1%nat.
Proof.
  destruct ls as [|p [|q ls]].
  - split; discriminate.
  - split; reflexivity.
  - rewrite lineStringArea_shoelace by (cbn [List.length]; lia).
    split; [discriminate|]. cbn [List.length]. lia.
Qed.

(** X1.  [lineStringArea] panics on the rings of exactly one point and
    on no other ring. *)
Theorem lineStringArea_panics_iff (ls : LineString F) :
  lineStringArea ls = None <-> List.length ls = 1%nat.
Proof.
  destruct ls as [|p [|q ls]].
  - split; discriminate.
  - split; reflexivity.
  - rewrite lineStringArea_shoelace by (cbn [List.length]; lia).
    split; [discriminate|]. cbn [List.length]. lia.
Qed.

(** X2.  [Area] panics when the polygon has no ring or one of its rings,
    outer ring or hole, has exactly one point, and only then. *)
Theorem Area_panics_iff (p : Polygon F) :
  Area p = None <->
  p = [] \/ Exists (fun ring => List.length ring = 1%nat) p.
Proof.
  destruct p as [|r0 holes].
  - split; [now left|reflexivity].
  - rewrite Area_unfold, Exists_cons, <- lineStringArea_None_iff.
    destruct (lineStringArea r0) as [area|]; cbn [Go.bind].
    2:{ split; [intros _; right; now left|reflexivity]. }
    revert area. induction holes as [|h holes IH]; intros area; cbn [fold_left].
    + split; [discriminate|]. intros [H|[H|H]]; try discriminate. inversion H.
    + rewrite Exists_cons, <- lineStringArea_None_iff.
      destruct (lineStringArea h) as [x|]; cbn [Go.bind].
      * rewrite IH. split.
        -- intros [H|[H|H]]; try discriminate. right. right. now right.
        -- intros [H|[H|[H|H]]]; try discriminate. right. now right.
      * split; [intros _; right; right; now left|].
        intros _. clear.
        induction holes as [|h' holes IH]; cbn; [reflexivity|exact IH].
Qed.

(** X3.  [ringCentroid] panics on the ring without points and on no
    other ring; [CentroidArea], and [Centroid] with it, panics when the
    polygon has no ring or one of its rings has no point, and only
    then. *)
Theorem CentroidArea_panics_iff (p : Polygon F) (ls : LineString F) :
  (ringCentroid ls = None <-> ls = [])
  /\ (CentroidArea p = None <-> p = [] \/ Exists (fun ring => ring = []) p)
  /\ (Centroid p = None <-> CentroidArea p = None).
Proof.
  assert (R : forall ring : LineString F, ringCentroid ring = None <-> ring = []).
  { intros [|r0 ring]; [split; reflexivity|].
    split; [|discriminate]. unfold ringCentroid.
    rewrite index_head. cbn [Go.bind].
    match goal with
    | |- Go.bind (Go.fold ?idx ?body ?s) _ = None -> _ =>
        pose proof (fold_succeeds body idx) as Hf; specialize (fun H => Hf H s);
        destruct (Go.fold idx body s) as [[[cx cy] area]|]
    end; [discriminate|].
    intros _. exfalso. apply Hf; [|reflexivity].
    intros i [[cx cy] area] Hi. apply range_In in Hi.
    destruct (index_in_range (r0 :: ring) i) as [a Ea]; [lia|].
    destruct (index_in_range (r0 :: ring) (i + 1)) as [b Eb]; [lia|].
    rewrite Ea, Eb. discriminate. }
  split; [apply R|]. split.
  - destruct p as [|r0 holes]; [split; [now left|reflexivity]|].
    rewrite CentroidArea_unfold, Exists_cons, <- R.
    destruct (ringCentroid r0) as [[centroid area]|]; cbn [Go.bind].
    2:{ split; [intros _; right; now left|reflexivity]. }
    assert (H : ringCentroids holes = None <-> Exists (fun ring => ring = []) holes).
    { induction holes as [|h holes IH]; cbn [ringCentroids fold_right].
      - split; [discriminate|intros H; inversion H].
      - rewrite Exists_cons, <- R. fold (ringCentroids holes).
        destruct (ringCentroid h) as [ca|]; cbn [Go.bind].
        + destruct (ringCentroids holes) as [hs|]; cbn [Go.bind].
          * split; [discriminate|]. intros [H|H]; [discriminate|].
            apply IH in H. discriminate.
          * split; [intros _; right; now apply IH|reflexivity].
        + split; [intros _; now left|reflexivity]. }
    rewrite <- H.
    destruct (ringCentroids holes) as [hs|]; cbn [Go.bind].
    + destruct (fold_left holeStep hs (zero, zero, zero)) as [[holeArea hcx] hcy].
      split; [discriminate|]. intros [E|[E|E]]; discriminate.
    + split; [intros _; right; now right|reflexivity].
  - unfold Centroid. destruct (CentroidArea p); cbn [Go.bind].
    + split; discriminate.
    + split; reflexivity.
Qed.

End PanicFacts.


Section ContainsPanicFacts.

Context {F : Type} {arith : Arith F} {compare : Compare F}.
Variable boundContains : LineString F -> Point F -> option bool.

Lemma for_succeeds {S R : Type} (body : Z -> S -> option (Go.flow S R))
      (idx : list Z) :
  (forall i s, In i idx -> body i s <> None) ->
  forall s, Go.for_ idx body s <> None.
Proof.
  induction idx as [|i idx IH]; intros H s; cbn [Go.for_]; [discriminate|].
  destruct (body i s) as [[s'|r]|] eqn:E.
  - apply IH. intros j s'' Hj. apply H. now right.
  - discriminate.
  - exfalso. apply (H i s); [now left|assumption].
Qed.

(** On a ring with points [lineStringContains] panics only if the
    bounding-rectangle test does. *)
Lemma lineStringContains_returns (ls : LineString F) (point : Point F) :
  ls <> [] -> boundContains ls point <> None ->
  lineStringContains boundContains ls point <> None.
Proof.
  intros Hls Hb. unfold lineStringContains.
  destruct (boundContains ls point) as [inb|]; [|congruence]. cbn [Go.bind].
  destruct (negb inb); [discriminate|].
  assert (Hlen : (0 < Go.len ls)%Z).
  { destruct ls; [congruence|]. unfold Go.len. cbn [List.length]. lia. }
  destruct (index_in_range ls 0) as [s0 E0]; [lia|].
  destruct (index_in_range ls (Go.len ls - 1)) as [sl El]; [lia|].
  rewrite E0, El. cbn [Go.bind].
  destruct (rayIntersect point s0 sl) as [c on].
  destruct on; [discriminate|].
  match goal with
  | |- Go.bind (Go.for_ ?idx ?body ?s) _ <> None =>
      pose proof (for_succeeds body idx) as Hf; specialize (fun H => Hf H s);
      destruct (Go.for_ idx body s) as [[c'|b]|]
  end; try discriminate.
  exfalso. apply Hf; [|reflexivity].
  intros i c' Hi. apply range_In in Hi.
  destruct (index_in_range ls i) as [a Ea]; [lia|].
  destruct (index_in_range ls (i + 1)) as [b Eb]; [lia|].
  rewrite Ea, Eb. cbn [Go.bind].
  destruct (rayIntersect point a b) as [inter on]. destruct on; discriminate.
Qed.

(** X4.  [Contains] returns an answer, with no panic, on every polygon
    that has a ring, whose rings all have a point and on whose rings the
    bounding-rectangle test returns.  On a ring without points
    [lineStringContains] answers false when the bounding-rectangle test
    does, and panics on [ls[0]] when that test passes. *)
Theorem Contains_returns (p : Polygon F) (point : Point F) :
  p <> [] ->
  Forall (fun ring => ring <> [] /\ boundContains ring point <> None) p ->
  Contains boundContains p point <> None
  /\ lineStringContains boundContains [] point
     = match boundContains [] point with
       | Some true => None
       | Some false => Some false
       | None => None
       end.
Proof.
  intros Hp Hall. split.
  2:{ unfold lineStringContains. now destruct (boundContains [] point) as [[|]|]. }
  destruct p as [|r0 holes]; [congruence|].
  inversion Hall as [|? ? [H0 B0] Hholes]; subst.
  rewrite Contains_unfold.
  pose proof (lineStringContains_returns r0 point H0 B0) as R0.
  destruct (lineStringContains boundContains r0 point) as [c|]; [|congruence].
  cbn [Go.bind]. destruct (negb c); [discriminate|].
  clear - Hholes. induction Hholes as [|h holes [Hh Bh] Hholes IH]; cbn [walk].
  - discriminate.
  - unfold holeTest at 1.
    pose proof (lineStringContains_returns h point Hh Bh) as Rh.
    destruct (lineStringContains boundContains h point) as [[|]|];
      cbn [Go.bind]; [discriminate|exact IH|congruence].
Qed.

(** X5.  Whether [Contains] answers true does not depend on the order of
    the hole rings. *)
Theorem Contains_holes_any_order
  (r0 : LineString F) (holes holes' : list (LineString F)) (point : Point F) :
  Permutation.Permutation holes holes' ->
  (Contains boundContains (r0 :: holes) point = Some true <->
   Contains boundContains (r0 :: holes') point = Some true).
Proof.
  intros HP. rewrite !Contains_true_iff.
  split; intros [H0 H]; (split; [assumption|]);
    rewrite Forall_forall in *; intros h Hh; apply H.
  - eapply Permutation.Permutation_in; [symmetry; eassumption|assumption].
  - eapply Permutation.Permutation_in; eassumption.
Qed.

End ContainsPanicFacts.

Lemma Contains_returns_witness :
  Contains64 donut (pt 2 2) <> None.
Proof.
  apply (Contains_returns Bound_Contains donut (pt 2 2)).
  - discriminate.
  - repeat constructor; discriminate.
Defined.

Lemma Contains_holes_any_order_witness :
  Contains Bound_Contains [outer4; hole2; unitSquare] (pt 3.5 3.5) = Some true <->
  Contains Bound_Contains [outer4; unitSquare; hole2] (pt 3.5 3.5) = Some true.
Proof.
  apply (Contains_holes_any_order Bound_Contains outer4
           [hole2; unitSquare] [unitSquare; hole2] (pt 3.5 3.5)).
  apply Permutation.perm_swap.
Defined.


(* ================================================================= *)
(** ** The text of a polygon *)

Section WKTFacts.

Context {F : Type} {arith : Arith F} {compare : Compare F}.
Variable wktPoints : LineString F -> string.

Local Open Scope string_scope.

Lemma string_app_assoc (a b c : string) : (a ++ b) ++ c = a ++ (b ++ c).
Proof. induction a as [|x a IH]; cbn; [reflexivity|now rewrite IH]. Qed.

Lemma WKT_holes_loop (holes : list (LineString F)) (buff : string) :
  fold_left (fun acc h => Go.bind acc (fun b => Some (b ++ "," ++ wktPoints h)))
    holes (Some buff)
  = Some (buff ++ wktHoles wktPoints holes).
Proof.
  revert buff. induction holes as [|h holes IH]; intros buff; cbn [fold_left wktHoles fold_right].
  - f_equal. induction buff as [|x b IHb]; cbn; [reflexivity|now rewrite <- IHb].
  - cbn [Go.bind]. rewrite IH. fold (wktHoles wktPoints holes).
    now rewrite !string_app_assoc.
Qed.

(** X6.  [WKT] never panics.  It writes ["EMPTY"] for the polygon
    without rings and for no other polygon; for a polygon with rings it
    writes ["POLYGON("], the text of the outer ring, the text of each
    hole after a comma, and [")"]. *)
Theorem WKT_text (p : Polygon F) :
  WKT wktPoints p
  = Some match p with
         | [] => "EMPTY"
         | r0 :: holes =>
             "POLYGON(" ++ wktPoints r0 ++ wktHoles wktPoints holes ++ ")"
         end
  /\ (WKT wktPoints p = Some "EMPTY" <-> p = []).
Proof.
  assert (E : WKT wktPoints p
              = Some match p with
                     | [] => "EMPTY"
                     | r0 :: holes =>
                         "POLYGON(" ++ wktPoints r0
                         ++ wktHoles wktPoints holes ++ ")"
                     end).
  { destruct p as [|r0 holes]; [reflexivity|].
    unfold WKT.
    destruct (Z.eqb_spec (Go.len (r0 :: holes)) 0) as [H|_].
    { unfold Go.len in H. cbn [List.length] in H. lia. }
    rewrite index_head. cbn [Go.bind].
    pose proof (fold_over_tail
                  (fun (h : LineString F) (b : string) =>
                     Some (b ++ "," ++ wktPoints h))
                  holes [r0] ("POLYGON(" ++ wktPoints r0)) as L.
    cbn [app] in L. change (Go.len [r0]) with 1%Z in L.
    rewrite L, WKT_holes_loop. cbn [Go.bind].
    now rewrite !string_app_assoc. }
  split; [exact E|]. rewrite E.
  destruct p as [|r0 holes]; [split; reflexivity|].
  split; [|discriminate]. cbn. discriminate.
Qed.

End WKTFacts.


(* ================================================================= *)
(** ** What [rayIntersect] answers *)

Lemma float_eqb_trans (x y z : float) :
  PrimFloat.eqb x y = true -> PrimFloat.eqb y z = true ->
  PrimFloat.eqb x z = true.
Proof. intros H1 H2. to_keys. apply float_eqb_key. eauto. Qed.

Lemma float_eqb_leb (x y : float) :
  PrimFloat.eqb x y = true -> PrimFloat.leb x y = true.
Proof. intros H. to_keys. apply float_leb_key. eauto 6. Qed.

Lemma float_ltb_leb (x y : float) :
  PrimFloat.ltb x y = true -> PrimFloat.leb x y = true.
Proof. intros H. to_keys. apply float_leb_key. eauto 6. Qed.

Lemma float_ltb_asym (x y : float) :
  PrimFloat.ltb x y = true -> PrimFloat.ltb y x = false.
Proof.
  intros H. apply not_true_is_false. intros H'. to_keys. lex_lia.
Qed.

Lemma float_ltb_neq (x y : float) :
  PrimFloat.ltb x y = true ->
  PrimFloat.eqb x y = false /\ PrimFloat.eqb y x = false.
Proof.
  intros H. split; apply not_true_is_false; intros H'; to_keys; lex_lia.
Qed.

(** Two numbers are equal or one is below the other. *)
Lemma float_total (x y : float) :
  PrimFloat.eqb x x = true -> PrimFloat.eqb y y = true ->
  PrimFloat.ltb x y = true \/ PrimFloat.eqb x y = true
  \/ PrimFloat.ltb y x = true.
Proof.
  intros Hx Hy. to_keys.
  rewrite !float_ltb_key, float_eqb_key.
  match goal with
  | Hx : key (Prim2SF x) = Some ?a, Hy : key (Prim2SF y) = Some ?b |- _ =>
      assert (T : lexlt a b \/ a = b \/ lexlt b a)
        by (destruct a as [[? ?] ?], b as [[? ?] ?]; unfold lexlt;
            assert (forall u v w u' v' w' : Z,
                       u = u' -> v = v' -> w = w' -> (u, v, w) = (u', v', w'))
              as Htri by (intros; subst; reflexivity);
            destruct (Z.lt_total z z2) as [?|[?|?]];
            destruct (Z.lt_total z0 z3) as [?|[?|?]];
            destruct (Z.lt_total z1 z4) as [?|[?|?]];
            try (left; lia); try (right; right; lia);
            right; left; apply Htri; assumption);
      destruct T as [T|[T|T]]
  end.
  - left. eauto 6.
  - right. left. subst. eauto.
  - right. right. eauto 6.
Qed.

(** X7.  [rayIntersect] never answers both "crosses" and "on the
    segment": whenever it reports the point on the segment, it reports no
    crossing. *)
Theorem rayIntersect_on_is_no_crossing (p s e : Point float) :
  snd (rayIntersect p s e) = true -> fst (rayIntersect p s e) = false.
Proof.
  unfold rayIntersect.
  destruct (ltb (px e) (px s));
    repeat match goal with
      | |- context [if ?c then _ else _] => destruct c
      end; cbn [fst snd]; congruence.
Qed.

Lemma rayIntersect_on_is_no_crossing_witness :
  fst (rayIntersect (pt 1 2) (pt 1 3) (pt 1 1)) = false.
Proof.
  apply (rayIntersect_on_is_no_crossing (pt 1 2) (pt 1 3) (pt 1 1)).
  reflexivity.
Defined.

(** A point that equals the first end of the segment is on it. *)
Lemma rayIntersect_at_start (p s e : Point float) :
  eqb (px p) (px s) = true -> eqb (py p) (py s) = true ->
  rayIntersect p s e = (false, true).
Proof.
  cbn [eqb float64_Compare]. intros Hx Hy. unfold rayIntersect.
  cbn [eqb ltb leb float64_Compare].
  destruct (PrimFloat.ltb (px e) (px s)) eqn:Eswap.
  - assert (N : PrimFloat.eqb (px p) (px e) = false).
    { apply not_true_is_false. intros H.
      assert (H' : PrimFloat.eqb (px e) (px s) = true).
      { apply float_eqb_trans with (px p); [|assumption].
        pose proof (eqb_sym (px p) (px e)) as Sy.
        cbn [eqb float64_Compare] in Sy. now rewrite <- Sy. }
      apply float_ltb_neq in Eswap. destruct Eswap. congruence. }
    rewrite N, Hx, Hy. reflexivity.
  - rewrite Hx, Hy. reflexivity.
Qed.

(** A point that equals the second end is on it too, when the y of the
    first end is a number. *)
Lemma rayIntersect_at_end (p s e : Point float) :
  eqb (px p) (px e) = true -> eqb (py p) (py e) = true ->
  IsNumber (py s) ->
  rayIntersect p s e = (false, true).
Proof.
  unfold IsNumber. cbn [eqb float64_Compare]. intros Hx Hy Hs.
  unfold rayIntersect. cbn [eqb ltb leb float64_Compare].
  assert (Sym : forall a b, PrimFloat.eqb a b = PrimFloat.eqb b a).
  { intros a b. exact (eqb_sym a b). }
  destruct (PrimFloat.ltb (px e) (px s)) eqn:Eswap.
  - rewrite Hx, Hy. reflexivity.
  - destruct (PrimFloat.eqb (px p) (px s)) eqn:Eps.
    2:{ rewrite Hx, Hy. reflexivity. }
    destruct (PrimFloat.eqb (py p) (py s)) eqn:Eys; [reflexivity|].
    assert (V : PrimFloat.eqb (px s) (px e) = true).
    { apply float_eqb_trans with (px p); [|assumption].
      now rewrite Sym. }
    rewrite V.
    assert (Le1 : PrimFloat.leb (py e) (py p) = true).
    { apply float_eqb_leb. now rewrite Sym. }
    assert (Le2 : PrimFloat.leb (py p) (py e) = true)
      by now apply float_eqb_leb.
    assert (He : PrimFloat.eqb (py e) (py e) = true).
    { apply float_eqb_trans with (py p); [now rewrite Sym|assumption]. }
    destruct (float_total (py s) (py e) Hs He) as [L|[E|L]].
    + rewrite L, Le2.
      assert (PrimFloat.leb (py s) (py p) = true) as ->.
      { apply float_ltb_leb.
        pose proof (eqb_ltb_r (py p) (py e) (py s) Hy) as Q.
        cbn [eqb ltb float64_Compare] in Q. now rewrite Q. }
      cbn [andb].
      now destruct (PrimFloat.ltb (py e) (py s) && PrimFloat.leb (py p) (py s)
                    && PrimFloat.leb (py e) (py p)).
    + exfalso.
      assert (PrimFloat.eqb (py p) (py s) = true); [|congruence].
      apply float_eqb_trans with (py e); [assumption|now rewrite Sym].
    + rewrite L, Le1.
      assert (PrimFloat.leb (py p) (py s) = true) as ->.
      { apply float_ltb_leb.
        pose proof (eqb_ltb_l (py p) (py e) (py s) Hy) as Q.
        cbn [eqb ltb float64_Compare] in Q. now rewrite Q. }
      reflexivity.
Qed.


(** X8.  [rayIntersect] casts its ray towards greater y.  A point whose
    x is strictly on one side of both ends of the segment neither
    crosses it nor is on it.  A point whose x is strictly between the x
    of the ends crosses the segment when its y is strictly below the y
    of both ends, and does not when its y is strictly above both. *)
Theorem rayIntersect_ray_goes_up (p s e : Point float) :
  ((ltb (px p) (px s) = true /\ ltb (px p) (px e) = true)
   \/ (ltb (px s) (px p) = true /\ ltb (px e) (px p) = true) ->
   rayIntersect p s e = (false, false))
  /\ ((ltb (px s) (px p) = true /\ ltb (px p) (px e) = true)
      \/ (ltb (px e) (px p) = true /\ ltb (px p) (px s) = true) ->
      (ltb (py p) (py s) = true -> ltb (py p) (py e) = true ->
       rayIntersect p s e = (true, false))
      /\ (ltb (py s) (py p) = true -> ltb (py e) (py p) = true ->
          rayIntersect p s e = (false, false))).
Proof.
  cbn [ltb float64_Compare]. unfold rayIntersect.
  cbn [eqb ltb leb float64_Compare].
  split.
  - intros [[H1 H2]|[H1 H2]];
      pose proof (float_ltb_neq _ _ H1) as [N1 N1'];
      pose proof (float_ltb_neq _ _ H2) as [N2 N2'];
      destruct (PrimFloat.ltb (px e) (px s));
      rewrite ?N1, ?N2, ?N1', ?N2', ?H1, ?H2, ?orb_true_r; reflexivity.
  - intros Hx. split; intros Hy1 Hy2.
    + pose proof (float_ltb_asym _ _ Hy1) as A1.
      pose proof (float_ltb_asym _ _ Hy2) as A2.
      destruct Hx as [[H1 H2]|[H1 H2]];
        pose proof (float_ltb_neq _ _ H1) as [N1 N1'];
        pose proof (float_ltb_neq _ _ H2) as [N2 N2'];
        pose proof (float_ltb_asym _ _ H1) as B1;
        pose proof (float_ltb_asym _ _ H2) as B2.
      * assert (S : PrimFloat.ltb (px s) (px e) = true)
          by exact (ltb_trans (px s) (px p) (px e) H1 H2).
        rewrite (float_ltb_asym _ _ S), N1', N2, B1, B2. cbn [orb].
        destruct (PrimFloat.ltb (py e) (py s));
          rewrite ?A1, ?A2, ?Hy1, ?Hy2; reflexivity.
      * assert (S : PrimFloat.ltb (px e) (px s) = true)
          by exact (ltb_trans (px e) (px p) (px s) H1 H2).
        rewrite S, N1', N2, B1, B2. cbn [orb].
        destruct (PrimFloat.ltb (py s) (py e));
          rewrite ?A1, ?A2, ?Hy1, ?Hy2; reflexivity.
    + pose proof (float_ltb_asym _ _ Hy1) as A1.
      pose proof (float_ltb_asym _ _ Hy2) as A2.
      destruct Hx as [[H1 H2]|[H1 H2]];
        pose proof (float_ltb_neq _ _ H1) as [N1 N1'];
        pose proof (float_ltb_neq _ _ H2) as [N2 N2'];
        pose proof (float_ltb_asym _ _ H1) as B1;
        pose proof (float_ltb_asym _ _ H2) as B2.
      * assert (S : PrimFloat.ltb (px s) (px e) = true)
          by exact (ltb_trans (px s) (px p) (px e) H1 H2).
        rewrite (float_ltb_asym _ _ S), N1', N2, B1, B2. cbn [orb].
        destruct (PrimFloat.ltb (py e) (py s));
          rewrite ?A1, ?A2, ?Hy1, ?Hy2; reflexivity.
      * assert (S : PrimFloat.ltb (px e) (px s) = true)
          by exact (ltb_trans (px e) (px p) (px s) H1 H2).
        rewrite S, N1', N2, B1, B2. cbn [orb].
        destruct (PrimFloat.ltb (py s) (py e));
          rewrite ?A1, ?A2, ?Hy1, ?Hy2; reflexivity.
Qed.

Lemma rayIntersect_ray_goes_up_witness :
  rayIntersect (pt 2 0) (pt 1 1) (pt 3 1) = (true, false).
Proof.
  apply (proj2 (rayIntersect_ray_goes_up (pt 2 0) (pt 1 1) (pt 3 1))).
  - left. split; reflexivity.
  - reflexivity.
  - reflexivity.
Defined.


(* ================================================================= *)
(** ** The points of a ring, and the bound of a polygon *)

Lemma Covers_Rect_Contains {F : Type} {compare : Compare F}
      (r : Rect F) (v : Point F) :
  Covers r v -> Rect_Contains r v = true.
Proof.
  intros (H1 & H2 & H3 & H4). unfold Rect_Contains.
  now rewrite H1, H2, H3, H4.
Qed.

Lemma In_index {A : Type} (l : list A) (a : A) :
  In a l -> exists i, Go.index l i = Some a.
Proof.
  intros H. apply In_nth_error in H. destruct H as [n Hn].
  exists (Z.of_nat n). unfold Go.index.
  destruct (Z.ltb_spec (Z.of_nat n) 0); [lia|]. now rewrite Nat2Z.id.
Qed.

(** X9.  On a ring none of whose coordinates is NaN,
    [lineStringContains] answers true at every point of the ring; and so
    does [Contains] for the polygon that is this ring without holes. *)
Theorem ring_points_contained (ls : LineString float) (v : Point float) :
  Forall (fun q => IsNumber (px q) /\ IsNumber (py q)) ls ->
  In v ls ->
  lineStringContains Bound_Contains ls v = Some true
  /\ Contains Bound_Contains [ls] v = Some true.
Proof.
  intros Hnum Hin.
  assert (Hv : IsNumber (px v) /\ IsNumber (py v)).
  { rewrite Forall_forall in Hnum. now apply Hnum. }
  destruct Hv as [Hvx Hvy].
  assert (Hb : Bound_Contains ls v = Some true).
  { destruct (Bound_covers ls v Hin) as (r & Er & Hc).
    unfold Bound_Contains. rewrite Er. cbn [Go.bind].
    now rewrite Covers_Rect_Contains. }
  assert (H : lineStringContains Bound_Contains ls v = Some true).
  { destruct (In_index ls v Hin) as [i Hi].
    pose proof (index_Some_range ls i v Hi) as Hr.
    destruct (Z.eq_dec i 0) as [->|Hi0].
    - destruct (index_in_range ls (Go.len ls - 1)) as [e He]; [lia|].
      apply lineStringContains_on_edge with (s := v) (e := e).
      + assumption.
      + right. now split.
      + now rewrite rayIntersect_at_start.
    - destruct (index_in_range ls (i - 1)) as [s Hs]; [lia|].
      apply lineStringContains_on_edge with (s := s) (e := v).
      + assumption.
      + left. exists (i - 1)%Z. split; [assumption|].
        now replace (i - 1 + 1)%Z with i by lia.
      + rewrite rayIntersect_at_end; [reflexivity|assumption|assumption|].
        rewrite Forall_forall in Hnum. apply Hnum.
        eapply index_Some_In. eassumption. }
  split; [assumption|]. now rewrite Contains_single_ring.
Qed.

Lemma ring_points_contained_witness :
  lineStringContains Bound_Contains unitSquare (pt 1 1) = Some true
  /\ Contains Bound_Contains [unitSquare] (pt 1 1) = Some true.
Proof.
  apply (ring_points_contained unitSquare (pt 1 1)).
  - repeat constructor.
  - right. right. now left.
Defined.

(** X10.  A point that [Contains] finds in the polygon is inside the
    rectangle [Polygon.Bound] returns. *)
Theorem Contains_within_Bound {F : Type} {arith : Arith F} {compare : Compare F}
        (p : Polygon F) (point : Point F) :
  Contains Bound_Contains p point = Some true ->
  exists r, Polygon_Bound p = Some r /\ Rect_Contains r point = true.
Proof.
  destruct p as [|r0 holes]; [discriminate|].
  intros H. apply Contains_true_iff in H. destruct H as [H _].
  unfold Polygon_Bound. rewrite index_head. cbn [Go.bind].
  unfold lineStringContains, Bound_Contains in H.
  destruct (Bound r0) as [r|]; [|discriminate]. cbn [Go.bind] in H.
  exists r. split; [reflexivity|].
  destruct (Rect_Contains r point); [reflexivity|discriminate].
Qed.

Lemma Contains_within_Bound_witness :
  exists r, Polygon_Bound donut = Some r
            /\ Rect_Contains r (pt 0.5 0.5) = true.
Proof.
  apply (Contains_within_Bound donut (pt 0.5 0.5)).
  vm_compute. reflexivity.
Defined.


(* ================================================================= *)
(** ** Centroid and signed area in exact arithmetic *)

Section FanFacts.

Context {F : Type} {arith : Arith F}.

Lemma fold_map_steps {S : Type} (step : S -> nat -> S) (phi : nat -> Z)
      (body : Z -> S -> option S) (l : list nat) :
  (forall k acc, In k l -> body (phi k) acc = Some (step acc k)) ->
  forall acc, Go.fold (map phi l) body acc = Some (fold_left step l acc).
Proof.
  induction l as [|k l IH]; intros H acc; [reflexivity|].
  cbn [map Go.fold fold_left]. rewrite H by now left.
  apply IH. intros k' acc' Hk'. apply H. now right.
Qed.

(** [ringCentroid] on a ring with points. *)
Lemma ringCentroid_fan (ring : LineString F) :
  ring <> [] ->
  ringCentroid ring
  = Some (fanResult ring
            (fold_left (fanStep ring) (seq 0 (List.length ring - 2))
               (zero, zero, zero))).
Proof.
  intros Hne. unfold ringCentroid.
  assert (Hn : (1 <= List.length ring)%nat).
  { destruct ring; [congruence|cbn; lia]. }
  change 0%Z with (Z.of_nat 0). rewrite index_vertex by lia. cbn [Go.bind].
  unfold Go.range.
  replace (Z.to_nat (Go.len ring - 1 - 1)) with (List.length ring - 2)%nat
    by (unfold Go.len; lia).
  rewrite fold_map_steps with (step := fanStep ring).
  2:{ intros k [[cx cy] area] Hk. apply in_seq in Hk.
      replace (1 + Z.of_nat k)%Z with (Z.of_nat (S k)) by lia.
      replace (Z.of_nat (S k) + 1)%Z with (Z.of_nat (S (S k))) by lia.
      rewrite !index_vertex by lia. reflexivity. }
  cbn [Go.bind].
  destruct (fold_left (fanStep ring) (seq 0 (List.length ring - 2))
              (zero, zero, zero)) as [[cx cy] area].
  reflexivity.
Qed.

End FanFacts.

Section RealCentroid.

Local Open Scope R_scope.


Lemma index_map {A B : Type} (f : A -> B) (l : list A) (i : Z) :
  Go.index (map f l) i = option_map f (Go.index l i).
Proof.
  unfold Go.index. destruct (i <? 0)%Z; [reflexivity|].
  apply nth_error_map.
Qed.


End RealCentroid.



Section RealFan.

Local Open Scope R_scope.

Lemma Rsum_minus (f g : nat -> R) (l : list nat) :
  Rsum (map (fun k => f k - g k) l) = Rsum (map f l) - Rsum (map g l).
Proof.
  induction l as [|k l IH]; cbn [map].
  - unfold Rsum. cbn. lra.
  - rewrite !Rsum_cons, IH. lra.
Qed.

Lemma Rsum_snoc (f : nat -> R) (m : nat) :
  Rsum (map f (seq 0 (S m))) = Rsum (map f (seq 0 m)) + f m.
Proof.
  rewrite seq_S, map_app, Rsum_app. cbn [map plus]. rewrite Rsum_cons.
  change (Rsum []) with 0. lra.
Qed.

(** Summing one place further on. *)
Lemma Rsum_shift (g : nat -> R) (m : nat) :
  Rsum (map (fun k => g (S k)) (seq 0 m))
  = Rsum (map g (seq 0 m)) + g m - g 0%nat.
Proof.
  induction m as [|m IH].
  - unfold Rsum. cbn. lra.
  - rewrite !Rsum_snoc, IH. lra.
Qed.

(** The three sums of the loop of [ringCentroid]. *)
Lemma fanStep_sums (ring : LineString R) (l : list nat) (cx cy a : R) :
  fold_left (fanStep ring) l (cx, cy, a)
  = (cx + Rsum (map (fun k =>
                       (px (vertex ring (S k)) + px (vertex ring (S (S k)))
                        - 2 * px (vertex ring 0)) * fanCross ring (S k)) l),
     cy + Rsum (map (fun k =>
                       (py (vertex ring (S k)) + py (vertex ring (S (S k)))
                        - 2 * py (vertex ring 0)) * fanCross ring (S k)) l),
     a + Rsum (map (fun k => fanCross ring (S k)) l)).
Proof.
  revert cx cy a. induction l as [|k l IH]; intros cx cy a; cbn [fold_left map].
  - unfold Rsum. cbn. f_equal; [f_equal|]; lra.
  - cbn [fanStep]. rewrite IH, !Rsum_cons.
    cbn [add sub mul two real_Arith]. f_equal; [f_equal|]; lra.
Qed.

Lemma fanCross_0 (ring : LineString R) : fanCross ring 0 = 0.
Proof. unfold fanCross. cbn [sub mul real_Arith]. ring. Qed.

(** On a closed ring the last cross product is 0 as well: its second
    point is the first point of the ring again. *)
Lemma fanCross_last (ring : LineString R) :
  Closed ring -> fanCross ring (List.length ring - 2) = 0.
Proof.
  intros [Hne Hc]. destruct ring as [|p0 [|p1 ring]]; [congruence| |].
  - apply fanCross_0.
  - unfold fanCross.
    replace (S (List.length (p0 :: p1 :: ring) - 2))
      with (List.length (p0 :: p1 :: ring) - 1)%nat by (cbn [List.length]; lia).
    rewrite Hc. cbn [sub mul real_Arith]. ring.
Qed.

End RealFan.


Section RealReverse.

Local Open Scope R_scope.

Variable ring : LineString R.
Hypothesis ring_closed : Closed ring.

Lemma rev_first : vertex (rev ring) 0 = vertex ring 0.
Proof.
  destruct ring_closed as [Hne Hc].
  rewrite vertex_rev.
  - now rewrite Nat.sub_0_r.
  - destruct ring; [congruence|cbn [List.length]; lia].
Qed.

Lemma fanCross_rev (k : nat) :
  (k < List.length ring - 2)%nat ->
  fanCross (rev ring) (S k) = - fanCross ring (List.length ring - 2 - 1 - k).
Proof.
  intros Hk. unfold fanCross. rewrite rev_first.
  rewrite !vertex_rev by lia.
  replace (List.length ring - 1 - S k)%nat
    with (S (List.length ring - 2 - 1 - k)) by lia.
  replace (List.length ring - 1 - S (S k))%nat
    with (List.length ring - 2 - 1 - k)%nat by lia.
  cbn [sub mul real_Arith]. ring.
Qed.

(** A sum of weighted cross products over the reversed ring is the
    opposite of the sum over the ring, when the weights of the reversed
    ring are those of the ring read backwards. *)
Lemma fan_sum_rev (W : LineString R -> nat -> R) :
  (forall k, (k < List.length ring - 2)%nat ->
             W (rev ring) (S k) = W ring (List.length ring - 2 - 1 - k)%nat) ->
  Rsum (map (fun k => W (rev ring) (S k) * fanCross (rev ring) (S k))
          (seq 0 (List.length ring - 2)))
  = - Rsum (map (fun k => W ring (S k) * fanCross ring (S k))
              (seq 0 (List.length ring - 2))).
Proof.
  intros HW.
  rewrite map_ext_in with
    (g := fun k => (fun j => - (W ring j * fanCross ring j))
                     (List.length ring - 2 - 1 - k)%nat).
  2:{ intros k Hk. apply in_seq in Hk.
      rewrite HW, fanCross_rev by lia. ring. }
  rewrite (Rsum_mirror (List.length ring - 2)
             (fun j => - (W ring j * fanCross ring j))).
  rewrite Rsum_opp.
  rewrite (Rsum_shift (fun j => W ring j * fanCross ring j)).
  rewrite fanCross_0, (fanCross_last ring ring_closed). lra.
Qed.

Lemma fold_fanStep_rev :
  fold_left (fanStep (rev ring)) (seq 0 (List.length ring - 2)) (0, 0, 0)
  = let '(cx, cy, a) :=
      fold_left (fanStep ring) (seq 0 (List.length ring - 2)) (0, 0, 0) in
    (- cx, - cy, - a).
Proof.
  rewrite !fanStep_sums. rewrite rev_first.
  rewrite (fan_sum_rev (fun l j => px (vertex l j) + px (vertex l (S j))
                                   - 2 * px (vertex ring 0))).
  2:{ intros k Hk. rewrite !vertex_rev by lia.
      replace (List.length ring - 1 - S k)%nat
        with (S (List.length ring - 2 - 1 - k)) by lia.
      replace (List.length ring - 1 - S (S k))%nat
        with (List.length ring - 2 - 1 - k)%nat by lia.
      ring. }
  rewrite (fan_sum_rev (fun l j => py (vertex l j) + py (vertex l (S j))
                                   - 2 * py (vertex ring 0))).
  2:{ intros k Hk. rewrite !vertex_rev by lia.
      replace (List.length ring - 1 - S k)%nat
        with (S (List.length ring - 2 - 1 - k)) by lia.
      replace (List.length ring - 1 - S (S k))%nat
        with (List.length ring - 2 - 1 - k)%nat by lia.
      ring. }
  pose proof (fan_sum_rev (fun _ _ => 1)) as H1.
  rewrite map_ext with (g := fun k => fanCross (rev ring) (S k)) in H1
    by (intros; ring).
  rewrite (map_ext (fun k => 1 * fanCross ring (S k))
             (fun k => fanCross ring (S k))) in H1 by (intros; ring).
  rewrite H1 by reflexivity.
  f_equal; [f_equal|]; lra.
Qed.

End RealReverse.




Section RealAreas.

Local Open Scope R_scope.

(** The terms [lineStringArea] adds and the cross products
    [ringCentroid] adds differ by amounts that cancel from one turn to
    the next. *)
Lemma shoelace_minus_fan (ring : LineString R) (m : nat) :
  Rsum (map (fun k => shoelaceTerm ring k - fanCross ring (S k)) (seq 0 m))
  = (px (vertex ring (S m)) - px (vertex ring 0))
    * (py (vertex ring m) - py (vertex ring 0))
    + px (vertex ring 0)
      * (py (vertex ring (S m)) + py (vertex ring m)
         - py (vertex ring 1) - py (vertex ring 0)).
Proof.
  induction m as [|m IH].
  - change (Rsum (map _ (seq 0 0))) with 0. ring.
  - rewrite Rsum_snoc, IH. unfold shoelaceTerm, fanCross.
    cbn [sub mul real_Arith]. ring.
Qed.

(** On a closed ring the sum [lineStringArea] halves is the sum of the
    cross products of [ringCentroid]. *)
Lemma shoelaceSum_fan (ring : LineString R) :
  Closed ring -> (2 <= List.length ring)%nat ->
  shoelaceSum ring
  = Rsum (map (fun k => fanCross ring (S k)) (seq 0 (List.length ring - 2))).
Proof.
  intros [Hne Hc] Hn. unfold shoelaceSum.
  rewrite fold_left_Rsum.
  pose proof (shoelace_minus_fan ring (List.length ring - 2)) as D.
  rewrite Rsum_minus in D.
  replace (S (List.length ring - 2)) with (List.length ring - 1)%nat in D by lia.
  rewrite Hc in *. cbn [zero add sub mul real_Arith]. lra.
Qed.

End RealAreas.




(* ================================================================= *)
(** ** The area of a polygon with holes, in exact arithmetic *)

Section RealHoles.

Local Open Scope R_scope.

(** One turn of the hole loop of [Area]. *)
Lemma Area_holes_loop (holes : list (LineString R)) :
  forall (acc a : R),
    fold_left
      (fun acc h => Go.bind acc (fun area =>
                    Go.bind (lineStringArea h) (fun x => Some (sub area x))))
      holes (Some acc) = Some a ->
    exists xs,
      Forall2 (fun h x => lineStringArea h = Some x) holes xs
      /\ Forall (fun x => 0 <= x) xs
      /\ a = acc - Rsum xs.
Proof.
  induction holes as [|h holes IH]; intros acc a H; cbn [fold_left] in H.
  - injection H as <-. exists []. repeat split; [constructor|constructor|].
    change (Rsum []) with 0. lra.
  - cbn [Go.bind] in H.
    destruct (lineStringArea h) as [x|] eqn:Eh; cbn [Go.bind] in H.
    2:{ rewrite fold_left_bind_None in H. discriminate. }
    destruct (IH _ _ H) as (xs & Hxs & Hpos & ->).
    exists (x :: xs). repeat split.
    + now constructor.
    + constructor; [|assumption].
      apply lineStringArea_is_Abs in Eh. destruct Eh as [->|[y ->]].
      * cbn [zero real_Arith]. lra.
      * cbn [Abs real_Arith]. apply Rabs_pos.
    + rewrite Rsum_cons. cbn [sub real_Arith]. lra.
Qed.

Lemma Rsum_nonneg (xs : list R) : Forall (fun x => 0 <= x) xs -> 0 <= Rsum xs.
Proof.
  induction 1 as [|x xs Hx _ IH]; [change (Rsum []) with 0; lra|].
  rewrite Rsum_cons. lra.
Qed.

End RealHoles.






(* ================================================================= *)
(** ** Containment and the direction of a ring *)

Section EdgeLoopFacts.

Context {F : Type} {arith : Arith F} {compare : Compare F}.

Lemma index_app_r {A : Type} (pre rest : list A) (k : nat) :
  Go.index (pre ++ rest) (Go.len pre + Z.of_nat k) = nth_error rest k.
Proof.
  unfold Go.index, Go.len.
  destruct (Z.ltb_spec (Z.of_nat (List.length pre) + Z.of_nat k) 0); [lia|].
  rewrite nth_error_app2 by lia. f_equal. lia.
Qed.

(** The edge loop, by index, is the walk over the consecutive pairs. *)
Lemma for_edges (point : Point F) :
  forall (rest pre : LineString F) (c : bool),
    Go.for_ (Go.range (Go.len pre) (Go.len (pre ++ rest) - 1))
      (fun i c =>
         Go.bind (Go.index (pre ++ rest) i) (fun a =>
         Go.bind (Go.index (pre ++ rest) (i + 1)) (fun b =>
           let '(inter, on) := rayIntersect point a b in
           if on then Some (Go.Return true)
           else Some (Go.Next (if inter then negb c else c)))))
      c
    = walk (edgeTest point) (edgesOf rest) c.
Proof.
  induction rest as [|a rest IH]; intros pre c.
  - rewrite range_empty; [reflexivity|]. rewrite app_nil_r. lia.
  - destruct rest as [|b rest].
    + rewrite range_empty; [reflexivity|].
      unfold Go.len. rewrite length_app. cbn [List.length]. lia.
    + rewrite range_step.
      2:{ unfold Go.len. rewrite length_app. cbn [List.length]. lia. }
      cbn [Go.for_ edgesOf tl combine walk].
      pose proof (index_app_r pre (a :: b :: rest) 0) as E0.
      pose proof (index_app_r pre (a :: b :: rest) 1) as E1.
      rewrite Z.add_0_r in E0. cbn [nth_error] in E0, E1.
      change (Z.of_nat 1) with 1%Z in E1.
      rewrite E0, E1. cbn [Go.bind].
      unfold edgeTest at 1. cbn [fst snd].
      destruct (rayIntersect point a b) as [inter on].
      destruct on; [reflexivity|].
      specialize (IH (pre ++ [a]) (if inter then negb c else c)).
      rewrite <- app_assoc in IH. cbn [app] in IH.
      replace (Go.len (pre ++ [a])) with (Go.len pre + 1)%Z in IH.
      2:{ unfold Go.len. rewrite length_app. cbn [List.length]. lia. }
      exact IH.
Qed.

(** What the walk over the edges returns. *)
Lemma walk_edges (point : Point F) (es : list (Point F * Point F)) :
  forall c,
    walk (edgeTest point) es c
    = Some (if onSome point es then Go.Return true
            else Go.Next (xorb c (parity point es))).
Proof.
  induction es as [|[a b] es IH]; intros c; cbn [walk onSome existsb parity fold_right].
  - now rewrite xorb_false_r.
  - unfold edgeTest at 1. cbn [fst snd].
    destruct (rayIntersect point a b) as [inter on]. cbn [fst snd].
    destruct on; [reflexivity|]. cbn [orb]. rewrite IH.
    fold (onSome point es) (parity point es).
    destruct (onSome point es); [reflexivity|].
    f_equal. f_equal. destruct inter, c, (parity point es); reflexivity.
Qed.

Lemma edgesOf_snoc (l : LineString F) (a b : Point F) :
  edgesOf ((l ++ [a]) ++ [b]) = edgesOf (l ++ [a]) ++ [(a, b)].
Proof.
  unfold edgesOf. induction l as [|x l IH]; [reflexivity|].
  destruct l as [|y l]; [reflexivity|].
  cbn [app tl combine] in *. now rewrite IH.
Qed.

Lemma edgesOf_rev (ls : LineString F) :
  edgesOf (rev ls) = map (fun ab => (snd ab, fst ab)) (rev (edgesOf ls)).
Proof.
  induction ls as [|a ls IH]; [reflexivity|].
  destruct ls as [|b ls]; [reflexivity|].
  cbn [rev] in *. rewrite edgesOf_snoc, IH.
  change (edgesOf (a :: b :: ls)) with ((a, b) :: edgesOf (b :: ls)).
  cbn [rev]. now rewrite map_app.
Qed.

Lemma In_edgesOf (ls : LineString F) (a b : Point F) :
  In (a, b) (edgesOf ls) -> Edge ls a b.
Proof.
  intros H. left. revert H. unfold edgesOf.
  induction ls as [|x ls IH]; [intros []|].
  destruct ls as [|y ls]; [intros []|].
  cbn [tl combine]. intros [E|H].
  - injection E as <- <-. exists 0%Z. split; reflexivity.
  - destruct (IH H) as (i & Ha & Hb).
    pose proof (index_Some_range _ _ _ Ha) as Hr.
    exists (i + 1)%Z. unfold Go.index in *.
    destruct (Z.ltb_spec i 0); [lia|].
    destruct (Z.ltb_spec (i + 1) 0); [lia|].
    destruct (Z.ltb_spec (i + 1 + 1) 0); [lia|].
    replace (Z.to_nat (i + 1)) with (S (Z.to_nat i)) in * by lia.
    replace (Z.to_nat (i + 1 + 1)) with (S (S (Z.to_nat i))) by lia.
    split; assumption.
Qed.

Section Symmetric.

Variable point : Point F.
Variable es : list (Point F * Point F).
Hypothesis symmetric :
  forall a b, In (a, b) es -> rayIntersect point b a = rayIntersect point a b.

Lemma onSome_flip_rev :
  onSome point (map (fun ab => (snd ab, fst ab)) (rev es)) = onSome point es.
Proof.
  unfold onSome. apply eq_true_iff_eq. rewrite !existsb_exists.
  split.
  - intros ([b a] & Hin & Hon). apply in_map_iff in Hin.
    destruct Hin as ([a' b'] & E & Hin). cbn [fst snd] in E.
    injection E as -> ->. apply in_rev in Hin.
    exists (a, b). split; [assumption|]. cbn [fst snd] in *.
    now rewrite <- (symmetric a b Hin).
  - intros ([a b] & Hin & Hon). exists (b, a). split.
    + apply in_map_iff. exists (a, b). split; [reflexivity|].
      now apply in_rev in Hin.
    + cbn [fst snd] in *. now rewrite (symmetric a b Hin).
Qed.

End Symmetric.

Lemma parity_app (point : Point F) (es es' : list (Point F * Point F)) :
  parity point (es ++ es') = xorb (parity point es) (parity point es').
Proof.
  induction es as [|ab es IH]; cbn [app].
  - change (parity point []) with false. now rewrite xorb_false_l.
  - change (parity point (ab :: es ++ es'))
      with (xorb (fst (rayIntersect point (fst ab) (snd ab)))
              (parity point (es ++ es'))).
    change (parity point (ab :: es))
      with (xorb (fst (rayIntersect point (fst ab) (snd ab)))
              (parity point es)).
    now rewrite IH, xorb_assoc.
Qed.

Lemma parity_flip_rev (point : Point F) (es : list (Point F * Point F)) :
  (forall a b, In (a, b) es ->
               rayIntersect point b a = rayIntersect point a b) ->
  parity point (map (fun ab => (snd ab, fst ab)) (rev es)) = parity point es.
Proof.
  induction es as [|[a b] es IH]; intros Hsym; [reflexivity|].
  cbn [rev]. rewrite map_app, parity_app, IH.
  2:{ intros a' b' H. apply Hsym. now right. }
  cbn [map parity fold_right fst snd].
  rewrite (Hsym a b) by now left.
  fold (parity point es). rewrite xorb_false_r. apply xorb_comm.
Qed.

End EdgeLoopFacts.


Section ReversedRing.

Context {F : Type} {arith : Arith F} {compare : Compare F}.
Variable boundContains : LineString F -> Point F -> option bool.

Lemma vertex_rev_any (ls : LineString F) (k : nat) :
  (k < List.length ls)%nat ->
  vertex (rev ls) k = vertex ls (List.length ls - 1 - k).
Proof.
  intros Hk. unfold vertex. rewrite rev_nth by assumption. f_equal. lia.
Qed.

(** [lineStringContains] on a ring with points: the bounding-rectangle
    test, the closing edge, then the edges. *)
Lemma lineStringContains_edges (ls : LineString F) (point : Point F) :
  ls <> [] ->
  lineStringContains boundContains ls point =
  Go.bind (boundContains ls point) (fun inb =>
    if negb inb then Some false
    else
      let '(c, on) := rayIntersect point (vertex ls 0)
                        (vertex ls (List.length ls - 1)) in
      if on then Some true
      else Some (if onSome point (edgesOf ls) then true
                 else xorb c (parity point (edgesOf ls)))).
Proof.
  intros Hne. unfold lineStringContains.
  assert (Hn : (1 <= List.length ls)%nat).
  { destruct ls; [congruence|cbn [List.length]; lia]. }
  destruct (boundContains ls point) as [inb|]; [|reflexivity].
  cbn [Go.bind]. destruct (negb inb); [reflexivity|].
  change 0%Z with (Z.of_nat 0).
  replace (Go.len ls - 1)%Z with (Z.of_nat (List.length ls - 1))
    by (unfold Go.len; lia).
  rewrite !index_vertex by lia. cbn [Go.bind].
  destruct (rayIntersect point (vertex ls 0) (vertex ls (List.length ls - 1)))
    as [c on].
  destruct on; [reflexivity|].
  pose proof (for_edges point ls [] c) as E. cbn [app] in E.
  change (Go.len (@nil (Point F))) with (Z.of_nat 0) in E.
  replace (Go.len ls - 1)%Z with (Z.of_nat (List.length ls - 1)) in E
    by (unfold Go.len; lia).
  rewrite E, walk_edges. cbn [Go.bind].
  now destruct (onSome point (edgesOf ls)).
Qed.

(** When [rayIntersect] answers the same for each edge of the ring taken
    in either direction, [lineStringContains] answers the same on the
    ring and on the ring with its points in the opposite order. *)
Lemma lineStringContains_rev (ls : LineString F) (point : Point F) :
  boundContains (rev ls) point = boundContains ls point ->
  (forall s e, Edge ls s e ->
               rayIntersect point e s = rayIntersect point s e) ->
  lineStringContains boundContains (rev ls) point
  = lineStringContains boundContains ls point.
Proof.
  intros Hb Hsym. destruct ls as [|p0 ls]; [reflexivity|].
  assert (Hne : p0 :: ls <> []) by discriminate.
  assert (Hn : (1 <= List.length (p0 :: ls))%nat) by (cbn [List.length]; lia).
  generalize dependent (p0 :: ls). clear p0 ls. intros l Hb Hsym Hne Hn.
  rewrite !lineStringContains_edges; try assumption.
  2:{ intros E. apply (f_equal (@List.length _)) in E.
      rewrite length_rev in E. cbn [List.length] in E. lia. }
  rewrite Hb, length_rev.
  destruct (boundContains l point) as [inb|]; [|reflexivity].
  cbn [Go.bind]. destruct (negb inb); [reflexivity|].
  rewrite !vertex_rev_any by lia.
  replace (List.length l - 1 - 0)%nat with (List.length l - 1)%nat by lia.
  replace (List.length l - 1 - (List.length l - 1))%nat with 0%nat by lia.
  rewrite (Hsym (vertex l 0) (vertex l (List.length l - 1))).
  2:{ right. split.
      - change 0%Z with (Z.of_nat 0). now rewrite index_vertex by lia.
      - replace (Go.len l - 1)%Z with (Z.of_nat (List.length l - 1))
          by (unfold Go.len; lia).
        now rewrite index_vertex by lia. }
  assert (Hes : forall a b, In (a, b) (edgesOf l) ->
                            rayIntersect point b a = rayIntersect point a b).
  { intros a b H. apply Hsym. now apply In_edgesOf. }
  rewrite edgesOf_rev, (onSome_flip_rev point (edgesOf l) Hes),
    (parity_flip_rev point (edgesOf l) Hes).
  reflexivity.
Qed.

End ReversedRing.

(** An edge whose ends have different x is put in the same order
    whichever end comes first. *)
Lemma rayIntersect_flip (p s e : Point float) :
  s = e \/ ltb (px s) (px e) = true \/ ltb (px e) (px s) = true ->
  rayIntersect p e s = rayIntersect p s e.
Proof.
  intros [->|[H|H]]; [reflexivity| |];
    cbn [ltb float64_Compare] in H;
    pose proof (float_ltb_asym _ _ H) as A;
    unfold rayIntersect; cbn [ltb float64_Compare];
    rewrite H, A; reflexivity.
Qed.

(** X17.  For a ring each of whose edges, the closing one included,
    joins two points of different x or is a single point, and a
    bounding-rectangle test that does not depend on the order of the
    points, [lineStringContains] answers the same on the ring and on the
    ring with its points in the opposite order; and so does [Contains]
    for the polygon without holes. *)
Theorem Contains_reversed_ring
  (bc : LineString float -> Point float -> option bool)
  (ls : LineString float) (point : Point float) :
  bc (rev ls) point = bc ls point ->
  (forall s e, Edge ls s e ->
               s = e \/ ltb (px s) (px e) = true \/ ltb (px e) (px s) = true) ->
  lineStringContains bc (rev ls) point = lineStringContains bc ls point
  /\ Contains bc [rev ls] point = Contains bc [ls] point.
Proof.
  intros Hb Hedges.
  assert (H : lineStringContains bc (rev ls) point
              = lineStringContains bc ls point).
  { apply lineStringContains_rev; [assumption|].
    intros s e He. apply rayIntersect_flip. auto. }
  split; [assumption|].
  rewrite (Contains_single_ring bc (rev ls) point),
    (Contains_single_ring bc ls point). exact H.
Qed.


Lemma Contains_reversed_ring_witness :
  lineStringContains Bound_Contains (rev triangle) (pt 2 1)
  = lineStringContains Bound_Contains triangle (pt 2 1)
  /\ Contains Bound_Contains [rev triangle] (pt 2 1)
     = Contains Bound_Contains [triangle] (pt 2 1).
Proof.
  apply (Contains_reversed_ring Bound_Contains triangle (pt 2 1)).
  - vm_compute. reflexivity.
  - intros s e [(i & Hs & He)|[Hs He]].
    + pose proof (index_Some_range _ _ _ He) as Hr.
      pose proof (index_Some_range _ _ _ Hs) as Hr'.
      change (Go.len triangle) with 4%Z in Hr, Hr'.
      assert (Hi : i = 0%Z \/ i = 1%Z \/ i = 2%Z) by lia.
      destruct Hi as [ -> | [ -> | -> ] ];
        cbn in Hs, He; (injection Hs as <-); (injection He as <-).
      * right. left. reflexivity.
      * right. right. reflexivity.
      * right. right. reflexivity.
    + cbn in Hs, He. injection Hs as <-. injection He as <-. now left.
Defined.


(* ================================================================= *)
(** ** More on panics and on areas in exact arithmetic *)

(** X18.  [DistanceFrom] panics on the polygon without rings.  It
    returns a distance, with no panic, on every polygon that has a ring,
    whose rings all have a point, and on whose rings the
    bounding-rectangle test and the distance to a ring return. *)
Theorem DistanceFrom_returns
  {F : Type} {arith : Arith F} {compare : Compare F}
  (bc : LineString F -> Point F -> option bool)
  (rd : LineString F -> Point F -> option F)
  (p : Polygon F) (point : Point F) :
  DistanceFrom bc rd [] point = None
  /\ (p <> [] ->
      Forall (fun ring => ring <> [] /\ bc ring point <> None
                          /\ rd ring point <> None) p ->
      DistanceFrom bc rd p point <> None).
Proof.
  split; [reflexivity|]. intros Hp Hall.
  destruct p as [|r0 holes]; [congruence|].
  inversion Hall as [|? ? (H0 & B0 & D0) Hholes]; subst.
  rewrite DistanceFrom_unfold.
  pose proof (lineStringContains_returns bc r0 point H0 B0) as R0.
  destruct (lineStringContains bc r0 point) as [c|]; [|congruence].
  cbn [Go.bind]. destruct (negb c); [assumption|].
  clear - Hholes. induction Hholes as [|h holes (Hh & Bh & Dh) Hholes IH];
    cbn [walk]; [discriminate|].
  unfold holeDistance at 1.
  pose proof (lineStringContains_returns bc h point Hh Bh) as Rh.
  destruct (lineStringContains bc h point) as [[|]|]; cbn [Go.bind];
    [|exact IH|congruence].
  destruct (rd h point); [discriminate|congruence].
Qed.

Lemma DistanceFrom_returns_witness :
  DistanceFrom64 donut (pt 2 2) <> None.
Proof.
  apply (DistanceFrom_returns Bound_Contains LineString_DistanceFrom
           donut (pt 2 2)).
  - discriminate.
  - repeat constructor; discriminate.
Defined.

Section RealDegenerate.

Local Open Scope R_scope.

Lemma Rsum_zero (l : list nat) : Rsum (map (fun _ => 0) l) = 0.
Proof.
  induction l as [|k l IH]; [reflexivity|]. cbn [map].
  rewrite Rsum_cons, IH. lra.
Qed.

Lemma vertex_constant (ls : LineString R) (q : Point R) (k : nat) :
  Forall (fun v => v = q) ls -> (k < List.length ls)%nat -> vertex ls k = q.
Proof.
  intros H Hk. rewrite Forall_forall in H. apply H.
  unfold vertex. now apply nth_In.
Qed.



End RealDegenerate.


Section RealTranslate.

Local Open Scope R_scope.

Variables dx dy : R.

Lemma vertex_translate (ls : LineString R) (k : nat) :
  (k < List.length ls)%nat ->
  vertex (translate dx dy ls) k
  = mkPoint (px (vertex ls k) + dx) (py (vertex ls k) + dy).
Proof.
  intros Hk. unfold vertex, translate.
  apply nth_error_nth. rewrite nth_error_map.
  now rewrite (nth_error_nth' ls (mkPoint zero zero) Hk).
Qed.

(** The terms the moved ring adds to those of the ring cancel from one
    turn of the loop to the next but one. *)
Lemma shoelace_translate (ls : LineString R) (m : nat) :
  (m + 2 <= List.length ls)%nat ->
  Rsum (map (fun k => shoelaceTerm (translate dx dy ls) k - shoelaceTerm ls k)
          (seq 0 m))
  = dx * (py (vertex ls (S m)) + py (vertex ls m)
          - py (vertex ls 1) - py (vertex ls 0)).
Proof.
  induction m as [|m IH]; intros Hm.
  - change (Rsum (map _ (seq 0 0))) with 0. ring.
  - rewrite Rsum_snoc, IH by lia. unfold shoelaceTerm.
    rewrite !vertex_translate by lia. cbn [px py sub mul real_Arith]. ring.
Qed.

Lemma length_translate (ls : LineString R) :
  List.length (translate dx dy ls) = List.length ls.
Proof. unfold translate. apply length_map. Qed.

Lemma lineStringArea_translate (ls : LineString R) :
  lineStringArea (translate dx dy ls) = lineStringArea ls.
Proof.
  destruct ls as [|p [|q ls]]; [reflexivity|reflexivity|].
  assert (Hn : (2 <= List.length (p :: q :: ls))%nat)
    by (cbn [List.length]; lia).
  generalize dependent (p :: q :: ls). clear p q ls. intros l Hn.
  rewrite !lineStringArea_shoelace by (rewrite ?length_translate; assumption).
  f_equal. f_equal. f_equal.
  unfold shoelaceSum. rewrite length_translate, !fold_left_Rsum.
  pose proof (shoelace_translate l (List.length l - 2)) as D.
  rewrite Rsum_minus in D.
  replace (S (List.length l - 2)) with (List.length l - 1)%nat in D by lia.
  rewrite !vertex_translate by lia.
  cbn [px py zero add sub mul real_Arith].
  specialize (D ltac:(lia)). nra.
Qed.

End RealTranslate.

